(** * react-query-local-storage: the data-access layer of [src/index.tsx]

    A shallow embedding of the three hooks of the demo application
    ([usePosts], [useAddPost], [usePost]), of the click handler of the
    [Posts] view, and of the parts of the platform they call:
    [localStorage], [JSON.parse], [JSON.stringify] and the query cache of
    the host library.

    Conventions of the embedding.
    - A JavaScript string is the list of its UTF-16 code units.
    - A JavaScript number is modelled exactly: an integer [Int z] or a
      decimal fraction [Dec m e] (the value [m / 10^e]).  Rounding to
      binary64, overflow and the sign of zero are not modelled; on the
      safe integers (|z| < 2^53), which is what a Post id is, the model
      and the platform agree.
    - The browser's storage and the query cache are global mutable state;
      they are the fields of [World], passed explicitly.  Every call of
      [getItem] and [setItem] is recorded in [calls].
    - Of the host library, what the hooks rely on is modelled: a query
      with its key, function and enabled flag, a mutation with its
      success handler, and the data of the cache entries.  A failed
      function is run once (no retries), and the persister, which
      mirrors the cache into the storage under a key of its own, is left
      out: the storage of the model is what the program's own calls
      make of it.
    - What [Math.random()] returns is a binary64 value, taken as the
      rational it denotes; its product with 100000 is rounded to
      binary64 as the platform rounds it. *)

From Stdlib Require Import ZArith NArith List String Ascii QArith Qround Qpower Lia.
From stdpp Require Import gmap list.

Local Open Scope N_scope.

(** ** Strings *)

Abbreviation jsstring := (list N).

(** The code units of a string of the source text (ASCII). *)
Definition u (s : string) : jsstring :=
  List.map N_of_ascii (list_ascii_of_string s).

Module Ch.
Definition BACKSPACE : N := 8.
Definition TAB : N := 9.
Definition LF : N := 10.
Definition FF : N := 12.
Definition CR : N := 13.
Definition SPACE : N := 32.
Definition DQUOTE : N := 34.
Definition PLUS : N := 43.
Definition COMMA : N := 44.
Definition MINUS : N := 45.
Definition DOT : N := 46.
Definition SLASH : N := 47.
Definition ZERO : N := 48.
Definition NINE : N := 57.
Definition COLON : N := 58.
Definition UPPER_E : N := 69.
Definition LBRACKET : N := 91.
Definition BACKSLASH : N := 92.
Definition RBRACKET : N := 93.
Definition LOWER_B : N := 98.
Definition LOWER_E : N := 101.
Definition LOWER_F : N := 102.
Definition LOWER_N : N := 110.
Definition LOWER_R : N := 114.
Definition LOWER_T : N := 116.
Definition LOWER_U : N := 117.
Definition LBRACE : N := 123.
Definition RBRACE : N := 125.
End Ch.

Definition is_digit (c : N) : bool := (Ch.ZERO <=? c) && (c <=? Ch.NINE).

Definition is_whitespace (c : N) : bool :=
  (c =? Ch.TAB) || (c =? Ch.LF) || (c =? Ch.CR) || (c =? Ch.SPACE).

Definition is_lead_surrogate (c : N) : bool := (0xD800 <=? c) && (c <=? 0xDBFF).
Definition is_trail_surrogate (c : N) : bool := (0xDC00 <=? c) && (c <=? 0xDFFF).

(** ** Numbers

    A number read from a text is kept as the decimal the text writes.
    The platform rounds it to binary64 (an integer of 2^53 or more may
    change, a number too large becomes Infinity, which is written back
    as null); the model does not.  On the integers below 2^53 in
    magnitude the two agree. *)

Inductive number :=
| Int (z : Z)
| Dec (m : Z) (e : positive).

(** [x === y] on two numbers.  [Dec m e] is kept in lowest terms by
    [make_number], so equality of values is equality of terms. *)
Definition number_eqb (x y : number) : bool :=
  match x, y with
  | Int a, Int b => (a =? b)%Z
  | Dec m e, Dec m' e' => (m =? m')%Z && (e =? e')%positive
  | _, _ => false
  end.

(** The decimal digits of [n], most significant first, prepended to [acc]. *)
Fixpoint digits_acc (fuel : nat) (n : N) (acc : jsstring) : jsstring :=
  match fuel with
  | O => acc
  | S fuel' =>
      let acc' := (Ch.ZERO + n mod 10) :: acc in
      if n <? 10 then acc' else digits_acc fuel' (n / 10) acc'
  end.

Definition digits (n : N) : jsstring :=
  digits_acc (S (N.to_nat (N.log2 n))) n [].

(** Drops the zeros at the end of a digit string. *)
Definition strip_trailing_zeros (ds : jsstring) : jsstring :=
  fold_right (fun c tl =>
                match tl with
                | [] => if c =? Ch.ZERO then [] else [c]
                | _ => c :: tl
                end) [] ds.

(** The exponent part of Number::toString: "e+21", "e-7". *)
Definition exponent_part (x : Z) : jsstring :=
  Ch.LOWER_E :: (if (x <? 0)%Z then Ch.MINUS else Ch.PLUS) :: digits (Z.abs_N x).

(** Number::toString on a positive value [s * 10^(n - k)], where [ds] are
    the [k] digits of [s] (no zero at the end), as ECMA-262 lays it out. *)
Definition Number_toString_digits (ds : jsstring) (n : Z) : jsstring :=
  let k := Z.of_nat (length ds) in
  if ((k <=? n) && (n <=? 21))%Z then
    ds ++ repeat Ch.ZERO (Z.to_nat (n - k))
  else if ((0 <? n) && (n <=? 21))%Z then
    take (Z.to_nat n) ds ++ Ch.DOT :: drop (Z.to_nat n) ds
  else if ((-6 <? n) && (n <=? 0))%Z then
    Ch.ZERO :: Ch.DOT :: repeat Ch.ZERO (Z.to_nat (- n)) ++ ds
  else
    match ds with
    | [d] => d :: exponent_part (n - 1)
    | d :: ds' => d :: Ch.DOT :: ds' ++ exponent_part (n - 1)
    | [] => []
    end.

(** Number::toString on the exact value.  From 22 digits on the platform
    writes the shortest digits that denote the binary64 value; the model
    writes those of the exact one. *)
Definition Number_toString (x : number) : jsstring :=
  match x with
  | Int z =>
      let a := Z.abs_N z in
      let sign := if (z <? 0)%Z then [Ch.MINUS] else [] in
      if a <? 10 ^ 21 then sign ++ digits a
      else sign ++ Number_toString_digits (strip_trailing_zeros (digits a))
                     (Z.of_nat (length (digits a)))
  | Dec m e =>
      let ds := digits (Z.abs_N m) in
      let sign := if (m <? 0)%Z then [Ch.MINUS] else [] in
      sign ++ Number_toString_digits ds (Z.of_nat (length ds) - Z.pos e)
  end.

(** The number [± m * 10^e10], as an [Int] when it is one. *)
Fixpoint reduce_dec (k : nat) (m : Z) : number :=
  match k with
  | O => Int m
  | S k' =>
      if (m =? 0)%Z then Int 0
      else if (m mod 10 =? 0)%Z then reduce_dec k' (m / 10)
      else Dec m (Pos.of_nat k)
  end.

Definition make_number (negative : bool) (m : N) (e10 : Z) : number :=
  let z := if negative then (- Z.of_N m)%Z else Z.of_N m in
  if (0 <=? e10)%Z then Int (z * 10 ^ e10) else reduce_dec (Z.to_nat (- e10)) z.

(** A maximal run of digits, read left to right: its value on top of
    [acc], how many digits were read, and what follows. *)
Fixpoint digits_run (s : jsstring) (acc : N) (count : nat) : N * nat * jsstring :=
  match s with
  | c :: s' =>
      if is_digit c then digits_run s' (10 * acc + (c - Ch.ZERO)) (S count)
      else (acc, count, s)
  | [] => (acc, count, [])
  end.

(** The JSON number grammar: an optional minus sign; the integer part,
    which is a single 0 or a run of digits that does not start with 0;
    an optional fraction, a dot and at least one digit; an optional
    exponent, e or E, an optional sign and at least one digit. *)
Definition parse_int_part (s : jsstring) : option (N * jsstring) :=
  match s with
  | c :: s' =>
      if c =? Ch.ZERO then Some (0, s')
      else if is_digit c then
        let '(v, _, rest) := digits_run s 0 0 in Some (v, rest)
      else None
  | [] => None
  end.

Definition parse_frac_part (s : jsstring) : option (N * nat * jsstring) :=
  match s with
  | c :: s' =>
      if c =? Ch.DOT then
        let '(v, count, rest) := digits_run s' 0 0 in
        match count with O => None | S _ => Some (v, count, rest) end
      else Some (0, O, s)
  | [] => Some (0, O, [])
  end.

Definition parse_exp_part (s : jsstring) : option (Z * jsstring) :=
  match s with
  | c :: s' =>
      if (c =? Ch.LOWER_E) || (c =? Ch.UPPER_E) then
        let '(negative, s'') :=
          match s' with
          | d :: t => if d =? Ch.MINUS then (true, t)
                      else if d =? Ch.PLUS then (false, t) else (false, s')
          | [] => (false, s')
          end in
        let '(v, count, rest) := digits_run s'' 0 0 in
        match count with
        | O => None
        | S _ => Some (if negative then (- Z.of_N v)%Z else Z.of_N v, rest)
        end
      else Some (0%Z, s)
  | [] => Some (0%Z, [])
  end.

Definition parse_number (s : jsstring) : option (number * jsstring) :=
  let '(negative, s1) :=
    match s with
    | c :: s' => if c =? Ch.MINUS then (true, s') else (false, s)
    | [] => (false, s)
    end in
  match parse_int_part s1 with
  | None => None
  | Some (i, s2) =>
      match parse_frac_part s2 with
      | None => None
      | Some (f, fcount, s3) =>
          match parse_exp_part s3 with
          | None => None
          | Some (x, s4) =>
              Some (make_number negative (i * 10 ^ N.of_nat fcount + f)
                      (x - Z.of_nat fcount), s4)
          end
      end
  end.


(** ** Errors *)

Inductive ErrorName := PlainError | SyntaxError | TypeError.

Record JSError := mkError { name : ErrorName; message : jsstring }.

(** ** Values

    What [JSON.parse] can return and [JSON.stringify] is applied to in
    this program.  The own properties of an object are listed in the
    order in which the platform enumerates them. *)

#[warnings="-register-all"]
Inductive value :=
| VNull
| VBool (b : bool)
| VNum (x : number)
| VStr (s : jsstring)
| VArr (elems : list value)
| VObj (props : list (jsstring * value)).

Fixpoint jsstring_eqb (a b : jsstring) : bool :=
  match a, b with
  | [], [] => true
  | x :: a', y :: b' => (x =? y) && jsstring_eqb a' b'
  | _, _ => false
  end.

(** ** JSON.stringify *)

Definition hex_digit (d : N) : N := if d <? 10 then Ch.ZERO + d else 87 + d.

(** UnicodeEscape: a backslash, u and four lowercase hexadecimal digits. *)
Definition UnicodeEscape (c : N) : jsstring :=
  [Ch.BACKSLASH; Ch.LOWER_U; hex_digit (c / 4096 mod 16);
   hex_digit (c / 256 mod 16); hex_digit (c / 16 mod 16); hex_digit (c mod 16)].

(** One code unit that is not half of a surrogate pair. *)
Definition quote_unit (c : N) : jsstring :=
  if c =? Ch.BACKSPACE then [Ch.BACKSLASH; Ch.LOWER_B]
  else if c =? Ch.TAB then [Ch.BACKSLASH; Ch.LOWER_T]
  else if c =? Ch.LF then [Ch.BACKSLASH; Ch.LOWER_N]
  else if c =? Ch.FF then [Ch.BACKSLASH; Ch.LOWER_F]
  else if c =? Ch.CR then [Ch.BACKSLASH; Ch.LOWER_R]
  else if c =? Ch.DQUOTE then [Ch.BACKSLASH; Ch.DQUOTE]
  else if c =? Ch.BACKSLASH then [Ch.BACKSLASH; Ch.BACKSLASH]
  else if (c <? Ch.SPACE) || is_lead_surrogate c || is_trail_surrogate c
       then UnicodeEscape c
  else [c].

(** The body of QuoteJSONString: the string is read by code points, so a
    lead surrogate followed by a trail surrogate goes through as it is
    and a surrogate on its own is escaped. *)
Fixpoint quote_units (s : jsstring) : jsstring :=
  match s with
  | [] => []
  | c :: s1 =>
      if is_lead_surrogate c then
        match s1 with
        | d :: s2 =>
            if is_trail_surrogate d then c :: d :: quote_units s2
            else UnicodeEscape c ++ quote_units s1
        | [] => UnicodeEscape c
        end
      else quote_unit c ++ quote_units s1
  end.

Definition QuoteJSONString (s : jsstring) : jsstring :=
  Ch.DQUOTE :: quote_units s ++ [Ch.DQUOTE].

Fixpoint join (parts : list jsstring) : jsstring :=
  match parts with
  | [] => []
  | [p] => p
  | p :: ps => p ++ Ch.COMMA :: join ps
  end.

Fixpoint SerializeJSONProperty (v : value) : jsstring :=
  match v with
  | VNull => u "null"
  | VBool true => u "true"
  | VBool false => u "false"
  | VNum x => Number_toString x
  | VStr s => QuoteJSONString s
  | VArr elems =>
      Ch.LBRACKET :: join (List.map SerializeJSONProperty elems) ++ [Ch.RBRACKET]
  | VObj props =>
      Ch.LBRACE ::
      join (List.map (fun kv => QuoteJSONString (fst kv) ++
                                Ch.COLON :: SerializeJSONProperty (snd kv)) props)
      ++ [Ch.RBRACE]
  end.

Definition JSON_stringify (v : value) : jsstring := SerializeJSONProperty v.

(** ** JSON.parse *)

Fixpoint skip_ws (s : jsstring) : jsstring :=
  match s with
  | c :: s1 => if is_whitespace c then skip_ws s1 else s
  | [] => []
  end.

Definition hex_value (c : N) : option N :=
  if is_digit c then Some (c - Ch.ZERO)
  else if (97 <=? c) && (c <=? 102) then Some (c - 87)
  else if (65 <=? c) && (c <=? 70) then Some (c - 55)
  else None.

Definition hex4 (a b c d : N) : option N :=
  match hex_value a, hex_value b, hex_value c, hex_value d with
  | Some x, Some y, Some z, Some w => Some (x * 4096 + y * 256 + z * 16 + w)
  | _, _, _, _ => None
  end.

(** The code unit a one-letter escape stands for. *)
Definition simple_escape (e : N) : option N :=
  if e =? Ch.DQUOTE then Some Ch.DQUOTE
  else if e =? Ch.BACKSLASH then Some Ch.BACKSLASH
  else if e =? Ch.SLASH then Some Ch.SLASH
  else if e =? Ch.LOWER_B then Some Ch.BACKSPACE
  else if e =? Ch.LOWER_F then Some Ch.FF
  else if e =? Ch.LOWER_N then Some Ch.LF
  else if e =? Ch.LOWER_R then Some Ch.CR
  else if e =? Ch.LOWER_T then Some Ch.TAB
  else None.

Definition prepend (c : N) (r : option (jsstring * jsstring)) :
    option (jsstring * jsstring) :=
  match r with
  | Some (s, rest) => Some (c :: s, rest)
  | None => None
  end.

(** The characters of a string literal after its opening quote, up to
    and including the closing quote. *)
Fixpoint parse_string_chars (s : jsstring) : option (jsstring * jsstring) :=
  match s with
  | [] => None
  | c :: s1 =>
      if c =? Ch.DQUOTE then Some ([], s1)
      else if c =? Ch.BACKSLASH then
        match s1 with
        | e :: s2 =>
            if e =? Ch.LOWER_U then
              match s2 with
              | h1 :: h2 :: h3 :: h4 :: s3 =>
                  match hex4 h1 h2 h3 h4 with
                  | Some c' => prepend c' (parse_string_chars s3)
                  | None => None
                  end
              | _ => None
              end
            else
              match simple_escape e with
              | Some c' => prepend c' (parse_string_chars s2)
              | None => None
              end
        | [] => None
        end
      else if c <? Ch.SPACE then None
      else prepend c (parse_string_chars s1)
  end.

Definition parse_string (s : jsstring) : option (jsstring * jsstring) :=
  match s with
  | c :: s1 => if c =? Ch.DQUOTE then parse_string_chars s1 else None
  | [] => None
  end.

(** [s] without the prefix [p], when it starts with it. *)
Fixpoint strip_prefix (p s : jsstring) : option jsstring :=
  match p, s with
  | [], _ => Some s
  | a :: p1, b :: s1 => if a =? b then strip_prefix p1 s1 else None
  | _ :: _, [] => None
  end.

(** An array index is the canonical decimal form of an integer below
    2^32 - 1. *)
Definition array_index (k : jsstring) : option N :=
  let '(v, _, rest) := digits_run k 0 0 in
  match rest with
  | [] => if jsstring_eqb (digits v) k && (v <? 4294967295) then Some v else None
  | _ => None
  end.

(** Whether a new key [k] is enumerated before the existing key [k']:
    array indices come first, in ascending order, then the other keys in
    the order of their creation. *)
Definition key_before (k k' : jsstring) : bool :=
  match array_index k, array_index k' with
  | Some i, Some j => i <? j
  | Some _, None => true
  | None, _ => false
  end.

(** CreateDataProperty on an ordinary object: an existing key keeps its
    place and takes the new value. *)
Fixpoint CreateDataProperty (o : list (jsstring * value)) (k : jsstring) (v : value)
    : list (jsstring * value) :=
  match o with
  | [] => [(k, v)]
  | (k', v') :: o1 =>
      if jsstring_eqb k k' then (k, v) :: o1
      else if key_before k k' then (k, v) :: (k', v') :: o1
      else (k', v') :: CreateDataProperty o1 k v
  end.

Fixpoint parse_value (fuel : nat) (s : jsstring) {struct fuel}
    : option (value * jsstring) :=
  match fuel with
  | O => None
  | S fuel' =>
      match skip_ws s with
      | [] => None
      | c :: s1 =>
          if c =? Ch.LBRACKET then
            match skip_ws s1 with
            | d :: s2 =>
                if d =? Ch.RBRACKET then Some (VArr [], s2)
                else
                  match parse_elements fuel' (d :: s2) with
                  | Some (elems, rest) => Some (VArr elems, rest)
                  | None => None
                  end
            | [] => None
            end
          else if c =? Ch.LBRACE then
            match skip_ws s1 with
            | d :: s2 =>
                if d =? Ch.RBRACE then Some (VObj [], s2)
                else
                  match parse_members fuel' (d :: s2) [] with
                  | Some (props, rest) => Some (VObj props, rest)
                  | None => None
                  end
            | [] => None
            end
          else if c =? Ch.DQUOTE then
            match parse_string_chars s1 with
            | Some (str, rest) => Some (VStr str, rest)
            | None => None
            end
          else if c =? Ch.LOWER_N then
            match strip_prefix (u "null") (c :: s1) with
            | Some rest => Some (VNull, rest)
            | None => None
            end
          else if c =? Ch.LOWER_T then
            match strip_prefix (u "true") (c :: s1) with
            | Some rest => Some (VBool true, rest)
            | None => None
            end
          else if c =? Ch.LOWER_F then
            match strip_prefix (u "false") (c :: s1) with
            | Some rest => Some (VBool false, rest)
            | None => None
            end
          else
            match parse_number (c :: s1) with
            | Some (x, rest) => Some (VNum x, rest)
            | None => None
            end
      end
  end

with parse_elements (fuel : nat) (s : jsstring) {struct fuel}
    : option (list value * jsstring) :=
  match fuel with
  | O => None
  | S fuel' =>
      match parse_value fuel' s with
      | None => None
      | Some (v, rest) =>
          match skip_ws rest with
          | c :: rest1 =>
              if c =? Ch.COMMA then
                match parse_elements fuel' rest1 with
                | Some (vs, rest2) => Some (v :: vs, rest2)
                | None => None
                end
              else if c =? Ch.RBRACKET then Some ([v], rest1)
              else None
          | [] => None
          end
      end
  end

with parse_members (fuel : nat) (s : jsstring) (o : list (jsstring * value))
    {struct fuel} : option (list (jsstring * value) * jsstring) :=
  match fuel with
  | O => None
  | S fuel' =>
      match parse_string (skip_ws s) with
      | None => None
      | Some (k, rest) =>
          match skip_ws rest with
          | c :: rest1 =>
              if c =? Ch.COLON then
                match parse_value fuel' rest1 with
                | None => None
                | Some (v, rest2) =>
                    let o' := CreateDataProperty o k v in
                    match skip_ws rest2 with
                    | d :: rest3 =>
                        if d =? Ch.COMMA then parse_members fuel' rest3 o'
                        else if d =? Ch.RBRACE then Some (o', rest3)
                        else None
                    | [] => None
                    end
                end
              else None
          | [] => None
          end
      end
  end.

(** The SyntaxError of [JSON.parse].  The wording of its message is left
    to the engine; the model words it after V8, with the rejected text in
    it. *)
Definition JSON_SyntaxError (text : jsstring) : JSError :=
  mkError SyntaxError
    (match skip_ws text with
     | [] => u "Unexpected end of JSON input"
     | _ => u "Unexpected token in JSON: " ++ text
     end).

(** The fuel is twice the length of the text, and two: a value and the
    list of its elements take one unit each, and no more than a unit per
    character is needed after that. *)
Definition JSON_parse (text : jsstring) : JSError + value :=
  match parse_value (2 * length text + 2) text with
  | Some (v, rest) =>
      match skip_ws rest with
      | [] => inr v
      | _ => inl (JSON_SyntaxError text)
      end
  | None => inl (JSON_SyntaxError text)
  end.

(** ** The global state: storage, its call log, the query cache *)

Inductive StorageCall :=
| GetItem (key : jsstring)
| SetItem (key val : jsstring).

Inductive Status := pending | error | success.

(** Modelled from the spec: a cache entry holds the last-known data and a
    status (pending, success or error); the freshness timestamp is left
    out.  [None] in [data] is JavaScript's undefined. *)
Record QueryState := mkQuery {
  status : Status;
  data : option value;
  failure : option JSError
}.

(** A query key is an array of strings and numbers: ["posts"],
    ["post", 7]. *)
Abbreviation QueryKey := (list (jsstring + Z)).

Record World := mkWorld {
  localStorage : gmap jsstring jsstring;
  calls : list StorageCall;
  queryCache : gmap QueryKey QueryState
}.

(** ** Asynchronous functions

    The body of an async function runs against the global state and
    settles its promise: [Fulfilled] with a value, or [Rejected] with
    what was thrown.  Nothing in this program yields between two storage
    calls of one body, so a body is one state transformer. *)

Inductive Outcome (A : Type) :=
| Fulfilled (a : A)
| Rejected (e : JSError).
Arguments Fulfilled {A} a.
Arguments Rejected {A} e.

Definition Async (A : Type) : Type := World -> Outcome A * World.

Definition ret {A} (a : A) : Async A := fun w => (Fulfilled a, w).

Definition throw {A} (e : JSError) : Async A := fun w => (Rejected e, w).

Definition bind {A B} (c : Async A) (k : A -> Async B) : Async B :=
  fun w =>
    match c w with
    | (Fulfilled a, w') => k a w'
    | (Rejected e, w') => (Rejected e, w')
    end.

(** A synchronous call that returns or throws. *)
Definition lift {A} (r : JSError + A) : Async A :=
  match r with
  | inr a => ret a
  | inl e => throw e
  end.

Declare Scope async_scope.
Delimit Scope async_scope with async.
Notation "'let*' x ':=' c 'in' k" := (bind c (fun x => k))
  (at level 10, x name, c at level 100, k at level 200) : async_scope.
Local Open Scope async_scope.

Definition localStorage_getItem (key : jsstring) : Async (option jsstring) :=
  fun w =>
    (Fulfilled (localStorage w !! key),
     mkWorld (localStorage w) (calls w ++ [GetItem key]) (queryCache w)).

Definition localStorage_setItem (key val : jsstring) : Async unit :=
  fun w =>
    (Fulfilled tt,
     mkWorld (<[key := val]> (localStorage w)) (calls w ++ [SetItem key val])
       (queryCache w)).

(** ** The host library: queries, mutations, the query client *)

Record QueryOptions := mkQueryOptions {
  queryKey : QueryKey;
  queryFn : Async (option value);
  enabled : bool
}.

Record MutationOptions (V R : Type) := mkMutationOptions {
  mutationFn : V -> Async R;
  onSuccess : R -> Async value
}.
Arguments mutationFn {V R} _ _.
Arguments onSuccess {V R} _ _.

Definition QueryClient_getQueryData (key : QueryKey) (w : World) : option value :=
  match queryCache w !! key with
  | Some q => data q
  | None => None
  end.

(** Modelled from the spec: the updater is applied to whatever is cached
    under the key (undefined when nothing is) and its result becomes the
    entry's data, with status success.  No storage call of the program
    is involved; the copy of the cache that the persister keeps in the
    storage, under a key of its own, is not part of the model. *)
Definition QueryClient_setQueryData (key : QueryKey)
    (updater : option value -> JSError + value) : Async value :=
  fun w =>
    match updater (QueryClient_getQueryData key w) with
    | inl e => (Rejected e, w)
    | inr d =>
        (Fulfilled d,
         mkWorld (localStorage w) (calls w)
           (<[key := mkQuery success (Some d) None]> (queryCache w)))
    end.

(** The key of a query as a value, and its hash: the library hashes a
    key with [JSON.stringify]. *)
Definition QueryKey_value (key : QueryKey) : value :=
  VArr (List.map (fun part : jsstring + Z =>
                    match part with
                    | inl s => VStr s
                    | inr z => VNum (Int z)
                    end) key).

(** The error the library raises itself when a query function resolves
    with undefined. *)
Definition undefined_data_error (key : QueryKey) : JSError :=
  mkError PlainError (JSON_stringify (QueryKey_value key) ++ u " data is undefined").

(** How a run of a query function settles the entry of its key.  As the
    spec has it, the operation goes from pending to success when its
    function resolves, with the result as data, and from pending to
    error when it fails; the data known before a failure is kept.  One
    case is the library's own, and not as the spec has it: the library
    the source imports (its names are those of version 5: [gcTime],
    [isPending], the status pending) takes a result that is undefined
    for a failure, and puts the query in the error state with an error
    of its own making. *)
Definition settle (key : QueryKey) (before : option QueryState)
    (o : Outcome (option value)) : QueryState :=
  let kept := match before with Some q => data q | None => None end in
  match o with
  | Fulfilled (Some d) => mkQuery success (Some d) None
  | Fulfilled None => mkQuery error kept (Some (undefined_data_error key))
  | Rejected e => mkQuery error kept (Some e)
  end.

(** Modelled from the spec: a disabled query does not execute; an enabled
    one runs its function and records how it settled under its key.  The
    function is run once: the retries of a failing function, which the
    library makes before it gives up, are not modelled, and neither is
    the persister's copy of the cache in the storage. *)
Definition useQuery_fetch (opts : QueryOptions) (w : World) : World :=
  if enabled opts then
    let '(o, w') := queryFn opts w in
    mkWorld (localStorage w') (calls w')
      (<[queryKey opts := settle (queryKey opts) (queryCache w' !! queryKey opts) o]>
         (queryCache w'))
  else w.

(** What a component that subscribes to the query is handed. *)
Definition useQuery (opts : QueryOptions) (w : World) : QueryState :=
  match queryCache w !! queryKey opts with
  | Some q => q
  | None => mkQuery pending None None
  end.

(** Modelled from the spec: a mutation runs its function and, when that
    resolves, its success handler; the mutation resolves with the
    function's result. *)
Definition mutate {V R} (opts : MutationOptions V R) (variables : V) : Async R :=
  let* r := mutationFn opts variables in
  let* _ := onSuccess opts r in
  ret r.

(** ** The program: [src/index.tsx] *)

Record Post := mkPost {
  id : Z;
  title : jsstring;
  body : jsstring
}.

(** The object literal of a Post: its keys in the order id, title, body. *)
Definition Post_value (p : Post) : value :=
  VObj [(u "id", VNum (Int (id p)));
        (u "title", VStr (title p));
        (u "body", VStr (body p))].

Definition Posts_value (ps : list Post) : value := VArr (List.map Post_value ps).

Definition POSTS : jsstring := u "posts".

(** [!response], for a response that is a string or null. *)
Definition not_string (response : option jsstring) : bool :=
  match response with
  | None => true
  | Some [] => true
  | Some (_ :: _) => false
  end.

(** [a ?? b] *)
Definition nullish {A} (a : option A) (b : A) : A :=
  match a with
  | Some x => x
  | None => b
  end.

(** [posts ?? []] on a cached value: undefined and null give way. *)
Definition nullish_value (a : option value) (b : value) : value :=
  match a with
  | None | Some VNull => b
  | Some v => v
  end.

(** In the else branch of [if (!response)] the response is a string, and
    not the empty one; [nullish response []] is that string. *)
Definition usePosts_queryFn : Async value :=
  let* response := localStorage_getItem POSTS in
  if not_string response then
    let* _ := localStorage_setItem POSTS (u "[]") in
    ret (VArr [])
  else
    lift (JSON_parse (nullish response [])).

Definition usePosts : QueryOptions :=
  mkQueryOptions [inl POSTS]
    (let* v := usePosts_queryFn in ret (Some v))
    true.

(** [response.push(x)]: only an array has a push method. *)
Definition Array_push (response : value) (x : value) : JSError + value :=
  match response with
  | VArr elems => inr (VArr (elems ++ [x]))
  | VNull => inl (mkError TypeError (u "Cannot read properties of null (reading 'push')"))
  | _ => inl (mkError TypeError (u "response.push is not a function"))
  end.

(** The code points of a string, each as a string: what iterating over a
    string yields. *)
Fixpoint code_points (s : jsstring) : list jsstring :=
  match s with
  | [] => []
  | c :: s1 =>
      match s1 with
      | d :: s2 =>
          if is_lead_surrogate c && is_trail_surrogate d
          then [c; d] :: code_points s2
          else [c] :: code_points s1
      | [] => [[c]]
      end
  end.

(** [...v] inside an array literal. *)
Definition spread (v : value) : JSError + list value :=
  match v with
  | VArr elems => inr elems
  | VStr s => inr (List.map VStr (code_points s))
  | _ => inl (mkError TypeError (u "posts is not iterable"))
  end.

(** The variables of the mutation: an object with the one field
    [newPost]. *)
Record AddPostVariables := mkVariables { newPost : Post }.

Definition useAddPost_mutationFn (variables : AddPostVariables) : Async Post :=
  let* item := localStorage_getItem POSTS in
  let* response := lift (JSON_parse (nullish item (u "[]"))) in
  let* response' := lift (Array_push response (Post_value (newPost variables))) in
  let* _ := localStorage_setItem POSTS (JSON_stringify response') in
  ret (newPost variables).

Definition useAddPost_onSuccess (post : Post) : Async value :=
  QueryClient_setQueryData [inl POSTS]
    (fun posts =>
       match spread (nullish_value posts (VArr [])) with
       | inr elems => inr (VArr (elems ++ [Post_value post]))
       | inl e => inl e
       end).

Definition useAddPost : MutationOptions AddPostVariables Post :=
  mkMutationOptions AddPostVariables Post useAddPost_mutationFn useAddPost_onSuccess.

(** ** Numbers of the click handler

    [Math.random()] returns a Number, a binary64 value, and the product
    with 100000 is rounded to one.  A finite Number is taken as the
    rational it denotes; the products of this program are far below the
    overflow threshold. *)

(** For a positive [x], the [e] with [2^e <= x < 2^(e+1)]. *)
Definition floor_log2 (x : Q) : Z :=
  let e := (Z.log2 (Qnum x) - Z.log2 (Z.pos (Qden x)))%Z in
  if Qle_bool (2 ^ e) x then e else (e - 1)%Z.

(** To the nearest integer, ties to even. *)
Definition round_half_even (y : Q) : Z :=
  let f := Qfloor y in
  match Qcompare (y - inject_Z f) (1 # 2) with
  | Lt => f
  | Gt => (f + 1)%Z
  | Eq => if Z.even f then f else (f + 1)%Z
  end.

(** The distance between the binary64 values around a positive [x]: 53
    significant bits, and no exponent below that of the subnormals. *)
Definition ulp (x : Q) : Q := (2 ^ Z.max (floor_log2 x - 52) (-1074))%Q.

(** The binary64 value nearest to a rational that is not negative. *)
Definition round_binary64 (x : Q) : Q :=
  if Qle_bool x 0 then 0%Q
  else (inject_Z (round_half_even (x / ulp x)) * ulp x)%Q.

Definition is_binary64 (x : Q) : bool := Qeq_bool (round_binary64 x) x.

(** [x * y] on Numbers that are not negative. *)
Definition Number_multiply (x y : Q) : Q := round_binary64 (x * y).

(** [Math.trunc]: towards zero. *)
Definition Math_trunc (x : Q) : Z := Z.quot (Qnum x) (Z.pos (Qden x)).

(** The click handler of the button of [Posts].  [random1] and [random2]
    are what the two calls of [Math.random()] return, in the order in
    which they are made. *)
Definition Posts_onClick (random1 random2 : Q) : Async Post :=
  let id := Math_trunc (Number_multiply random1 100000) in
  mutate useAddPost
    (mkVariables
       (mkPost (Math_trunc (Number_multiply random2 100000))
               (u "hello " ++ Number_toString (Int id))
               (u "yoo"))).

(** [post.id] on a value read from the store. *)
Fixpoint get_property (props : list (jsstring * value)) (k : jsstring) : option value :=
  match props with
  | [] => None
  | (k', v) :: props1 => if jsstring_eqb k k' then Some v else get_property props1 k
  end.

Definition get_id (post : value) : JSError + option value :=
  match post with
  | VNull => inl (mkError TypeError (u "Cannot read properties of null (reading 'id')"))
  | VObj props => inr (get_property props (u "id"))
  | _ => inr None
  end.

(** [x === postId], for a number [postId]. *)
Definition strict_equal (x : option value) (postId : Z) : bool :=
  match x with
  | Some (VNum n) => number_eqb n (Int postId)
  | _ => false
  end.

Fixpoint find_first (elems : list value) (pred : value -> JSError + bool)
    : JSError + option value :=
  match elems with
  | [] => inr None
  | x :: elems1 =>
      match pred x with
      | inl e => inl e
      | inr true => inr (Some x)
      | inr false => find_first elems1 pred
      end
  end.

(** [posts.find(pred)]: only an array has a find method. *)
Definition Array_find (posts : value) (pred : value -> JSError + bool)
    : JSError + option value :=
  match posts with
  | VArr elems => find_first elems pred
  | VNull => inl (mkError TypeError (u "Cannot read properties of null (reading 'find')"))
  | _ => inl (mkError TypeError (u "posts.find is not a function"))
  end.

Definition usePost_queryFn (postId : Z) : Async (option value) :=
  let* response := localStorage_getItem POSTS in
  if not_string response then
    throw (mkError PlainError (u "No posts yet"))
  else
    let* posts := lift (JSON_parse (nullish response [])) in
    lift (Array_find posts
            (fun post =>
               match get_id post with
               | inr x => inr (strict_equal x postId)
               | inl e => inl e
               end)).

(** [!!postId] for a number: zero is the falsy one. *)
Definition ToBoolean (postId : Z) : bool := negb (postId =? 0)%Z.

Definition usePost (postId : Z) : QueryOptions :=
  mkQueryOptions [inl (u "post"); inr postId]
    (usePost_queryFn postId)
    (negb (negb (ToBoolean postId))).

(** [App] shows the [Post] view, and with it calls [usePost], when
    [postId > -1], and the [Posts] view otherwise. *)
Inductive View := PostsView | PostView (postId : Z).

Definition App (postId : Z) : View :=
  if (postId >? -1)%Z then PostView postId else PostsView.

(** ** Predicates of the statements *)

(** What may follow a run of digits for the reading to stop there. *)
Definition not_digit_first (rest : jsstring) : Prop :=
  match rest with
  | [] => True
  | c :: _ => is_digit c = false
  end.

(** What may follow a number for the reading to stop there. *)
Definition number_end (rest : jsstring) : Prop :=
  match rest with
  | [] => True
  | c :: _ =>
      is_digit c = false /\ c <> Ch.DOT /\ c <> Ch.LOWER_E /\ c <> Ch.UPPER_E
  end.

(** The number a digit string denotes. *)
Definition digits_value (ds : jsstring) : N :=
  fold_left (fun a c => 10 * a + (c - Ch.ZERO)) ds 0.

(** The fraction of the exponent form: nothing, or a dot and digits. *)
Definition fraction_text (ds : jsstring) : jsstring :=
  match ds with
  | [] => []
  | _ :: _ => Ch.DOT :: ds
  end.

(** The collection the store holds, read the way [useAddPost] reads it. *)
Definition stored_collection (w : World) : JSError + value :=
  JSON_parse (nullish (localStorage w !! POSTS) (u "[]")).

(** A sequence of presses of the add button, whatever each mutation does
    to the cache. *)
Fixpoint addPosts (ps : list Post) (w : World) : World :=
  match ps with
  | [] => w
  | p :: ps' => addPosts ps' (snd (mutate useAddPost (mkVariables p) w))
  end.


(** The storage calls of a sequence of adds that starts on the collection
    [qs]: every add reads the key once and writes the whole collection,
    with its post at the end, once. *)
Fixpoint add_calls (qs ps : list Post) : list StorageCall :=
  match ps with
  | [] => []
  | p :: ps' =>
      GetItem POSTS ::
      SetItem POSTS (JSON_stringify (Posts_value (qs ++ [p]))) ::
      add_calls (qs ++ [p]) ps'
  end.

(** ** The views: [Posts] and [Post]

    A view is modelled by what it hands to React: which of its branches
    it renders and with which values.  [isFetching] and [isPending] are
    flags of the host library and are taken as they come. *)

(** Whether a value is truthy; [None] is undefined. *)
Definition truthy (x : option value) : bool :=
  match x with
  | None => false
  | Some VNull => false
  | Some (VBool b) => b
  | Some (VNum n) => negb (number_eqb n (Int 0))
  | Some (VStr []) => false
  | Some (VStr (_ :: _)) => true
  | Some (VArr _) => true
  | Some (VObj _) => true
  end.

(** [x.k] for a key [k] that no prototype defines (id, title, body):
    undefined and null have no properties, an object has its own ones. *)
Definition get_member (x : option value) (k : jsstring) : JSError + option value :=
  match x with
  | None =>
      inl (mkError TypeError
             (u "Cannot read properties of undefined (reading '" ++ k ++ u "')"))
  | Some VNull =>
      inl (mkError TypeError
             (u "Cannot read properties of null (reading '" ++ k ++ u "')"))
  | Some (VObj props) => inr (get_property props k)
  | Some _ => inr None
  end.

Fixpoint map_values {A} (f : value -> JSError + A) (elems : list value)
    : JSError + list A :=
  match elems with
  | [] => inr []
  | x :: elems1 =>
      match f x with
      | inl e => inl e
      | inr y =>
          match map_values f elems1 with
          | inl e => inl e
          | inr ys => inr (y :: ys)
          end
      end
  end.

(** [data.map(f)]: only an array has a map method. *)
Definition Array_map {A} (data : option value) (f : value -> JSError + A)
    : JSError + list A :=
  match data with
  | Some (VArr elems) => map_values f elems
  | None =>
      inl (mkError TypeError (u "Cannot read properties of undefined (reading 'map')"))
  | Some VNull =>
      inl (mkError TypeError (u "Cannot read properties of null (reading 'map')"))
  | Some _ => inl (mkError TypeError (u "data.map is not a function"))
  end.

(** [error.message], for the error of a query. *)
Definition error_message (failure : option JSError) : JSError + jsstring :=
  match failure with
  | Some e => inr (message e)
  | None =>
      inl (mkError TypeError (u "Cannot read properties of null (reading 'message')"))
  end.

(** The key ["post", post.id].  The keys of the cache hold strings and
    integers; a key with another part is none of them, and nothing is
    cached under it. *)
Definition post_key (x : option value) : option QueryKey :=
  match x with
  | Some (VNum (Int z)) => Some [inl (u "post"); inr z]
  | Some (VStr s) => Some [inl (u "post"); inl s]
  | _ => None
  end.

(** One link of the list: what a click hands to [setPostId], whether the
    link is shown bold (and green), and its text. *)
Record PostLink := mkLink {
  link_postId : option value;
  link_bold : bool;
  link_text : option value
}.

(** The callback of [data.map] in [Posts]. *)
Definition Posts_link (w : World) (post : value) : JSError + PostLink :=
  match get_id post with
  | inl e => inl e
  | inr i =>
      match get_member (Some post) (u "title") with
      | inl e => inl e
      | inr t =>
          inr (mkLink i
                 (match post_key i with
                  | Some key => truthy (QueryClient_getQueryData key w)
                  | None => false
                  end)
                 t)
      end
  end.

Inductive PostsBody :=
| PostsLoading
| PostsError (msg : jsstring)
| PostsList (links : list PostLink) (updating : bool).

Record PostsScreen := mkPostsScreen {
  posts_body : PostsBody;
  button_disabled : bool
}.

(** The component [Posts]: a render either throws or gives the screen. *)
Definition Posts_render (isFetching isPending : bool) (w : World)
    : JSError + PostsScreen :=
  let q := useQuery usePosts w in
  match status q with
  | pending => inr (mkPostsScreen PostsLoading isPending)
  | error =>
      match error_message (failure q) with
      | inl e => inl e
      | inr msg => inr (mkPostsScreen (PostsError msg) isPending)
      end
  | success =>
      match Array_map (data q) (Posts_link w) with
      | inl e => inl e
      | inr links => inr (mkPostsScreen (PostsList links isFetching) isPending)
      end
  end.

Inductive PostBody :=
| PostLoading
| PostError (msg : jsstring)
| PostDetail (heading text : option value) (updating : bool).

(** The component [Post], under its Back link. *)
Definition Post_render (postId : Z) (isFetching : bool) (w : World)
    : JSError + PostBody :=
  let q := useQuery (usePost postId) w in
  if negb (ToBoolean postId) then inr PostLoading
  else
    match status q with
    | pending => inr PostLoading
    | error =>
        match error_message (failure q) with
        | inl e => inl e
        | inr msg => inr (PostError msg)
        end
    | success =>
        match get_member (data q) (u "title") with
        | inl e => inl e
        | inr t =>
            match get_member (data q) (u "body") with
            | inl e => inl e
            | inr b => inr (PostDetail t b isFetching)
            end
        end
    end.

(** The first post of a collection with a given id. *)
Definition first_with_id (postId : Z) (ps : list Post) : option Post :=
  List.find (fun p => (id p =? postId)%Z) ps.

(** The link of a Post of the collection, as [Posts] renders it. *)
Definition Post_link (w : World) (p : Post) : PostLink :=
  mkLink (Some (VNum (Int (id p))))
         (truthy (QueryClient_getQueryData [inl (u "post"); inr (id p)] w))
         (Some (VStr (title p))).

(** A sequence of visits: each one opens the [Post] view of an id, which
    runs the query of that id if it is enabled. *)
Definition visitPosts (ids : list Z) (w : World) : World :=
  fold_left (fun w1 postId => useQuery_fetch (usePost postId) w1) ids w.

(** The values of the model that the platform holds as they are: their
    numbers are integers below 2^53, which binary64 represents. *)
Fixpoint safe_value (v : value) : bool :=
  match v with
  | VNum (Int z) => (Z.abs z <? 2 ^ 53)%Z
  | VNum (Dec _ _) => false
  | VArr elems => forallb safe_value elems
  | VObj props => forallb (fun kv => match kv with (_, x) => safe_value x end) props
  | _ => true
  end.

(** The key a storage call names. *)
Definition call_key (c : StorageCall) : jsstring :=
  match c with
  | GetItem key => key
  | SetItem key _ => key
  end.

(** * Properties *)

(** ** Decimal digits *)

Lemma is_digit_spec c : is_digit c = true <-> 48 <= c <= 57.
Proof. unfold is_digit, Ch.ZERO, Ch.NINE. rewrite andb_true_iff, !N.leb_le. tauto. Qed.

Lemma is_digit_of_digit d : d < 10 -> is_digit (Ch.ZERO + d) = true.
Proof. intros. apply is_digit_spec. unfold Ch.ZERO. lia. Qed.

(** Reading back the digits that [digits_acc] writes adds [n] below the
    accumulator, and the first digit written is not a zero unless [n] is. *)
Lemma digits_acc_S fuel n acc :
  digits_acc (S fuel) n acc =
    if n <? 10 then (Ch.ZERO + n mod 10) :: acc
    else digits_acc fuel (n / 10) ((Ch.ZERO + n mod 10) :: acc).
Proof. reflexivity. Qed.

Lemma digits_run_digits_acc fuel : forall n l rest a c,
  n < 2 ^ N.of_nat (S fuel) ->
  exists k,
    digits_run (digits_acc (S fuel) n l ++ rest) a c =
      digits_run (l ++ rest) (a * 10 ^ N.of_nat k + n) (c + k)%nat /\
    length (digits_acc (S fuel) n l) = (k + length l)%nat /\
    (1 <= k)%nat /\
    exists d t, digits_acc (S fuel) n l = d :: t /\ is_digit d = true /\
                (n <> 0 -> d <> Ch.ZERO).
Proof.
  assert (forall fuel n l rest a c, n < 10 ->
            digits_run (digits_acc (S fuel) n l ++ rest) a c =
              digits_run (l ++ rest) (a * 10 ^ N.of_nat 1 + n) (c + 1)%nat /\
            length (digits_acc (S fuel) n l) = (1 + length l)%nat /\
            (1 <= 1)%nat /\
            exists d t, digits_acc (S fuel) n l = d :: t /\ is_digit d = true /\
                        (n <> 0 -> d <> Ch.ZERO)) as Hsmall.
  { intros fuel' n l rest a c Hlt. rewrite digits_acc_S.
    apply N.ltb_lt in Hlt as Hb. rewrite Hb, (N.mod_small n 10) by done.
    cbn [app digits_run]. rewrite is_digit_of_digit by done.
    split; [|split; [done|split; [done|]]].
    - change (10 ^ N.of_nat 1) with 10. unfold Ch.ZERO. f_equal; lia.
    - eexists _, _. split; [done|]. split; [by apply is_digit_of_digit|].
      unfold Ch.ZERO. lia. }
  induction fuel as [|fuel IH]; intros n l rest a c Hn.
  - exists 1%nat. apply Hsmall. change (2 ^ N.of_nat 1) with 2 in Hn. lia.
  - destruct (N.ltb_spec n 10) as [Hlt|Hge]; [exists 1%nat; by apply Hsmall|].
    rewrite digits_acc_S. apply N.ltb_ge in Hge as Hb. rewrite Hb.
    assert (n / 10 < 2 ^ N.of_nat (S fuel)) as Hdiv.
    { apply N.Div0.div_lt_upper_bound.
      rewrite Nat2N.inj_succ, N.pow_succ_r' in Hn. lia. }
    destruct (IH (n / 10) ((Ch.ZERO + n mod 10) :: l) rest a c Hdiv)
      as (k & Hrun & Hlen & Hk & d & t & Hhd & Hd & Hnz).
    exists (S k). rewrite Hrun, Hlen.
    cbn [app digits_run length].
    assert (n mod 10 < 10) as Hmod by (apply N.mod_lt; lia).
    rewrite is_digit_of_digit by done.
    split; [|split; [lia|split; [lia|]]].
    + rewrite Nat2N.inj_succ, N.pow_succ_r'.
      pose proof (N.div_mod n 10 ltac:(lia)). unfold Ch.ZERO.
      generalize (10 ^ N.of_nat k). intros p. clear -H.
      set (q := n / 10) in *. set (r := n mod 10) in *. f_equal; lia.
    + exists d, t. split; [done|]. split; [done|].
      intros _. apply Hnz. intros H0. apply N.div_small_iff in H0; lia.
Qed.

Lemma digits_fuel n : n < 2 ^ N.of_nat (S (N.to_nat (N.log2 n))).
Proof.
  rewrite Nat2N.inj_succ, N2Nat.id.
  destruct n as [|p]; [done|]. apply N.log2_spec. lia.
Qed.

Lemma digits_run_stop rest a c :
  not_digit_first rest -> digits_run rest a c = (a, c, rest).
Proof. destruct rest as [|x rest]; cbn; [done|]. by intros ->. Qed.

Lemma digits_run_digits n rest :
  not_digit_first rest ->
  digits_run (digits n ++ rest) 0 0 = (n, length (digits n), rest).
Proof.
  intros Hrest. unfold digits.
  destruct (digits_run_digits_acc _ n [] rest 0 0%nat (digits_fuel n))
    as (k & Hrun & Hlen & _ & _).
  rewrite Hrun, Hlen. cbn [app length]. rewrite digits_run_stop by done.
  cbn [length]. do 2 f_equal; lia.
Qed.

Lemma digits_head n :
  exists d t, digits n = d :: t /\ is_digit d = true /\ (n <> 0 -> d <> Ch.ZERO).
Proof.
  unfold digits.
  destruct (digits_run_digits_acc _ n [] [] 0 0%nat (digits_fuel n))
    as (k & _ & _ & _ & H). exact H.
Qed.

Lemma digits_0 : digits 0 = [Ch.ZERO].
Proof. reflexivity. Qed.

(** ** Numbers: reading back what Number::toString writes *)

Lemma parse_int_part_digits n rest :
  not_digit_first rest -> parse_int_part (digits n ++ rest) = Some (n, rest).
Proof.
  intros Hrest. destruct (N.eq_dec n 0) as [->|Hn].
  - rewrite digits_0. reflexivity.
  - pose proof (digits_run_digits n rest Hrest) as Hrun.
    destruct (digits_head n) as (d & t & Hd & Hdig & Hnz).
    rewrite Hd in *. cbn [app] in *. unfold parse_int_part.
    destruct (N.eqb_spec d Ch.ZERO) as [->|_]; [by destruct Hnz|].
    rewrite Hdig, Hrun. done.
Qed.

Lemma parse_frac_part_none rest :
  number_end rest -> parse_frac_part rest = Some (0, 0%nat, rest).
Proof.
  destruct rest as [|c rest]; cbn; [done|]. intros (_ & Hdot & _).
  by destruct (N.eqb_spec c Ch.DOT).
Qed.

Lemma parse_exp_part_none rest :
  number_end rest -> parse_exp_part rest = Some (0%Z, rest).
Proof.
  destruct rest as [|c rest]; cbn; [done|]. intros (_ & _ & He & HE).
  destruct (N.eqb_spec c Ch.LOWER_E); [done|].
  by destruct (N.eqb_spec c Ch.UPPER_E).
Qed.

Lemma number_end_not_digit rest : number_end rest -> not_digit_first rest.
Proof. destruct rest; cbn; tauto. Qed.

(** *** Digit strings and their values *)

Lemma digits_value_acc ds : forall acc,
  fold_left (fun a c => 10 * a + (c - Ch.ZERO)) ds acc =
    acc * 10 ^ N.of_nat (length ds) + digits_value ds.
Proof.
  unfold digits_value.
  induction ds as [|c ds IH]; intros acc; cbn [fold_left length].
  - change (10 ^ N.of_nat 0) with 1. lia.
  - rewrite IH, (IH (10 * 0 + (c - Ch.ZERO))).
    rewrite Nat2N.inj_succ, N.pow_succ_r'.
    generalize (10 ^ N.of_nat (length ds)). intros p. lia.
Qed.

Lemma digits_value_cons c ds :
  digits_value (c :: ds) = (c - Ch.ZERO) * 10 ^ N.of_nat (length ds) + digits_value ds.
Proof.
  unfold digits_value at 1. cbn [fold_left]. rewrite digits_value_acc.
  by rewrite N.mul_0_r, N.add_0_l.
Qed.

Lemma digits_value_app ds ds' :
  digits_value (ds ++ ds') =
    digits_value ds * 10 ^ N.of_nat (length ds') + digits_value ds'.
Proof.
  unfold digits_value at 1. rewrite fold_left_app.
  fold (digits_value ds). apply digits_value_acc.
Qed.

Lemma digits_value_zeros j : digits_value (repeat Ch.ZERO j) = 0.
Proof.
  induction j as [|j IH]; [done|]. cbn [repeat].
  rewrite digits_value_cons, IH. unfold Ch.ZERO. lia.
Qed.

(** A run of digits followed by something else is read to its end. *)
Lemma digits_run_all ds : forall rest acc count,
  Forall (fun c => is_digit c = true) ds ->
  not_digit_first rest ->
  digits_run (ds ++ rest) acc count =
    (fold_left (fun a c => 10 * a + (c - Ch.ZERO)) ds acc,
     (count + length ds)%nat, rest).
Proof.
  induction ds as [|c ds IH]; intros rest acc count Hds Hrest.
  - cbn [app fold_left length]. rewrite digits_run_stop by done.
    do 2 f_equal. lia.
  - inversion Hds as [|? ? Hc Hds']; subst. cbn [app digits_run].
    rewrite Hc, IH by done. cbn [fold_left length]. do 2 f_equal. lia.
Qed.

Lemma digits_acc_all_digits fuel : forall n acc,
  Forall (fun c => is_digit c = true) acc ->
  Forall (fun c => is_digit c = true) (digits_acc fuel n acc).
Proof.
  induction fuel as [|fuel IH]; intros n acc Hacc; [done|].
  rewrite digits_acc_S.
  assert (is_digit (Ch.ZERO + n mod 10) = true) as Hd.
  { apply is_digit_of_digit. apply N.mod_lt. lia. }
  destruct (n <? 10); [by constructor|]. apply IH. by constructor.
Qed.

Lemma digits_all_digits n : Forall (fun c => is_digit c = true) (digits n).
Proof. apply digits_acc_all_digits. constructor. Qed.

Lemma digits_value_digits n : digits_value (digits n) = n.
Proof.
  pose proof (digits_run_digits n [] I) as H1.
  pose proof (digits_run_all (digits n) [] 0 0%nat (digits_all_digits n) I) as H2.
  rewrite H1 in H2. unfold digits_value. congruence.
Qed.

(** What [strip_trailing_zeros] drops is a run of zeros, and it keeps a
    first digit that is not a zero. *)
Lemma strip_trailing_zeros_cons c ds :
  strip_trailing_zeros (c :: ds) =
    match strip_trailing_zeros ds with
    | [] => if c =? Ch.ZERO then [] else [c]
    | tl => c :: tl
    end.
Proof. unfold strip_trailing_zeros. cbn [fold_right]. by destruct (fold_right _ _ _). Qed.

Lemma strip_trailing_zeros_spec ds :
  exists j, ds = strip_trailing_zeros ds ++ repeat Ch.ZERO j.
Proof.
  induction ds as [|c ds [j IH]]; [by exists 0%nat|].
  rewrite strip_trailing_zeros_cons.
  destruct (strip_trailing_zeros ds) as [|x tl] eqn:Hs.
  - cbn [app] in IH. destruct (N.eqb_spec c Ch.ZERO) as [->|_].
    + exists (S j). cbn [app repeat]. by rewrite <- IH.
    + exists j. cbn [app]. by rewrite <- IH.
  - exists j. cbn [app] in *. by rewrite <- IH.
Qed.

Lemma strip_trailing_zeros_head d t :
  d <> Ch.ZERO -> exists t', strip_trailing_zeros (d :: t) = d :: t'.
Proof.
  intros Hd. rewrite strip_trailing_zeros_cons.
  destruct (strip_trailing_zeros t); [|by eauto].
  destruct (N.eqb_spec d Ch.ZERO); [done|by eauto].
Qed.

(** *** Numbers in exponent form *)

Lemma parse_number_signed (negative : bool) body :
  (exists d t, body = d :: t /\ is_digit d = true) ->
  parse_number ((if negative then [Ch.MINUS] else []) ++ body) =
    match parse_int_part body with
    | None => None
    | Some (i, s2) =>
        match parse_frac_part s2 with
        | None => None
        | Some (f, fcount, s3) =>
            match parse_exp_part s3 with
            | None => None
            | Some (x, s4) =>
                Some (make_number negative (i * 10 ^ N.of_nat fcount + f)
                        (x - Z.of_nat fcount), s4)
            end
        end
    end.
Proof.
  intros (d & t & -> & Hd). unfold parse_number. destruct negative; [done|].
  cbn [app]. apply is_digit_spec in Hd.
  by destruct (N.eqb_spec d Ch.MINUS) as [E|_]; [unfold Ch.MINUS in E; lia|].
Qed.

Lemma parse_exp_part_exponent x rest :
  (0 <= x)%Z -> not_digit_first rest ->
  parse_exp_part (exponent_part x ++ rest) = Some (x, rest).
Proof.
  intros Hx Hrest. unfold exponent_part.
  destruct (Z.ltb_spec x 0) as [|_]; [lia|].
  cbn [app parse_exp_part].
  change ((Ch.LOWER_E =? Ch.LOWER_E) || (Ch.LOWER_E =? Ch.UPPER_E)) with true.
  change (Ch.PLUS =? Ch.MINUS) with false.
  change (Ch.PLUS =? Ch.PLUS) with true. cbn iota.
  rewrite digits_run_digits by done.
  destruct (digits_head (Z.abs_N x)) as (d & t & -> & _). cbn [length].
  do 2 f_equal. lia.
Qed.

Lemma make_number_integer negative m j :
  make_number negative m (Z.of_nat j) =
    Int ((if negative then - Z.of_N m else Z.of_N m) * 10 ^ Z.of_nat j).
Proof.
  unfold make_number. by destruct (Z.leb_spec 0 (Z.of_nat j)) as [_|]; [|lia].
Qed.

Lemma digits_value_bound ds :
  Forall (fun c => is_digit c = true) ds ->
  digits_value ds < 10 ^ N.of_nat (length ds).
Proof.
  induction 1 as [|c ds Hc _ IH]; [done|].
  rewrite digits_value_cons. cbn [length]. rewrite Nat2N.inj_succ, N.pow_succ_r'.
  apply is_digit_spec in Hc.
  assert ((c - Ch.ZERO) * 10 ^ N.of_nat (length ds) <= 9 * 10 ^ N.of_nat (length ds)) as Hm.
  { apply N.mul_le_mono_r. unfold Ch.ZERO. lia. }
  revert Hm IH. generalize (10 ^ N.of_nat (length ds)), ((c - Ch.ZERO) * 10 ^ N.of_nat (length ds)).
  intros p q. lia.
Qed.

Lemma digits_length_large a : 10 ^ 21 <= a -> (21 < length (digits a))%nat.
Proof.
  intros Ha. pose proof (digits_value_bound _ (digits_all_digits a)) as Hb.
  rewrite digits_value_digits in Hb.
  destruct (Nat.ltb_spec 21 (length (digits a))) as [|Hshort]; [done|exfalso].
  assert (10 ^ N.of_nat (length (digits a)) <= 10 ^ 21) as Hpow.
  { apply N.pow_le_mono_r; lia. }
  lia.
Qed.

Lemma parse_int_part_one_digit d rest :
  is_digit d = true -> d <> Ch.ZERO -> not_digit_first rest ->
  parse_int_part (d :: rest) = Some (d - Ch.ZERO, rest).
Proof.
  intros Hd Hd0 Hrest. unfold parse_int_part.
  destruct (N.eqb_spec d Ch.ZERO); [done|]. rewrite Hd.
  change (d :: rest) with ([d] ++ rest).
  rewrite (digits_run_all [d] rest 0 0%nat) by (by repeat constructor).
  done.
Qed.

Lemma parse_frac_part_digits ds x rest :
  Forall (fun c => is_digit c = true) ds ->
  parse_frac_part (fraction_text ds ++ exponent_part x ++ rest) =
    Some (digits_value ds, length ds, exponent_part x ++ rest).
Proof.
  intros Hds. destruct ds as [|c ds]; [done|].
  cbn [fraction_text]. rewrite <- (app_comm_cons (c :: ds) _ Ch.DOT).
  cbn [parse_frac_part]. change (Ch.DOT =? Ch.DOT) with true. cbn iota.
  rewrite (digits_run_all (c :: ds)) by done. done.
Qed.

Lemma Number_toString_digits_large d ds n :
  (21 < n)%Z ->
  Number_toString_digits (d :: ds) n = d :: fraction_text ds ++ exponent_part (n - 1).
Proof.
  intros Hn. unfold Number_toString_digits.
  replace (n <=? 21)%Z with false by (symmetry; apply Z.leb_gt; lia).
  replace (n <=? 0)%Z with false by (symmetry; apply Z.leb_gt; lia).
  rewrite !andb_false_r. by destruct ds.
Qed.

(** The digits of [a] in the layout of Number::toString, read back. *)
Lemma parse_Number_toString_digits (negative : bool) a rest :
  10 ^ 21 <= a -> number_end rest ->
  parse_number
    ((if negative then [Ch.MINUS] else []) ++
     Number_toString_digits (strip_trailing_zeros (digits a))
       (Z.of_nat (length (digits a))) ++ rest) =
  Some (Int (if negative then - Z.of_N a else Z.of_N a), rest).
Proof.
  intros Ha Hrest. pose proof (number_end_not_digit _ Hrest) as Hnd.
  destruct (digits_head a) as (d & t & Hdt & Hd & Hnz).
  assert (d <> Ch.ZERO) as Hd0 by (apply Hnz; lia).
  destruct (strip_trailing_zeros_spec (digits a)) as (j & Hj).
  destruct (strip_trailing_zeros_head d t Hd0) as (t' & Ht').
  rewrite <- Hdt in Ht'. rewrite Ht' in Hj.
  pose proof (digits_all_digits a) as Hall. rewrite Hj in Hall.
  apply Forall_app in Hall as [Hall _].
  inversion Hall as [|? ? _ Hdigits]; subst.
  pose proof (digits_value_digits a) as Hval.
  rewrite Hj, digits_value_app, digits_value_zeros, repeat_length in Hval.
  rewrite digits_value_cons in Hval.
  assert (length (digits a) = (S (length t') + j)%nat) as Hlen.
  { rewrite Hj at 1. rewrite length_app, repeat_length. done. }
  pose proof (digits_length_large a Ha) as Hlong.
  rewrite Ht', Number_toString_digits_large by lia.
  rewrite parse_number_signed by (cbn [app]; eauto).
  cbn [app]. rewrite <- app_assoc.
  rewrite parse_int_part_one_digit; [|done|done|].
  2:{ destruct t'; [by cbn|by cbn]. }
  rewrite parse_frac_part_digits by done.
  rewrite parse_exp_part_exponent by (done || lia).
  replace (Z.of_nat (length (digits a)) - 1 - Z.of_nat (length t'))%Z
    with (Z.of_nat j) by lia.
  rewrite make_number_integer. do 3 f_equal.
  rewrite <- Hval. clear.
  destruct negative;
    repeat first [rewrite N2Z.inj_add | rewrite N2Z.inj_mul
                 | rewrite N2Z.inj_pow | rewrite nat_N_Z];
    change (Z.of_N 10) with 10%Z; change (Z.of_N 0) with 0%Z; ring.
Qed.

(** Number::toString of an integer, read back by the number grammar. *)
Lemma parse_number_toString z rest :
  number_end rest ->
  parse_number (Number_toString (Int z) ++ rest) = Some (Int z, rest).
Proof.
  intros Hrest. pose proof (number_end_not_digit _ Hrest) as Hnd.
  assert ((if (z <? 0)%Z then - Z.of_N (Z.abs_N z) else Z.of_N (Z.abs_N z)) = z)%Z as Hz.
  { rewrite N2Z.inj_abs_N. destruct (Z.ltb_spec z 0); lia. }
  unfold Number_toString. destruct (N.ltb_spec (Z.abs_N z) (10 ^ 21)) as [Hsmall|Hlarge].
  - rewrite <- app_assoc, parse_number_signed.
    2:{ destruct (digits_head (Z.abs_N z)) as (d & t & -> & Hd & _). cbn [app]. eauto. }
    rewrite parse_int_part_digits, parse_frac_part_none, parse_exp_part_none by done.
    rewrite (make_number_integer _ _ 0). do 3 f_equal.
    rewrite N.mul_1_r, N.add_0_r. change (10 ^ Z.of_nat 0)%Z with 1%Z. lia.
  - rewrite <- app_assoc, parse_Number_toString_digits by done. by rewrite Hz.
Qed.

(** The first character of a number is a minus sign or a digit. *)
Lemma Number_toString_head z :
  exists c t, Number_toString (Int z) = c :: t /\ (c = Ch.MINUS \/ is_digit c = true).
Proof.
  unfold Number_toString. destruct (z <? 0)%Z; [destruct (_ <? _); cbn [app]; by eauto|].
  destruct (N.ltb_spec (Z.abs_N z) (10 ^ 21)) as [Hsmall|Hlarge]; cbn [app].
  - destruct (digits_head (Z.abs_N z)) as (d & t & -> & Hdig & _). eauto.
  - destruct (digits_head (Z.abs_N z)) as (d & t & Hdt & Hd & Hnz).
    assert (d <> Ch.ZERO) as Hd0 by (apply Hnz; lia).
    destruct (strip_trailing_zeros_head d t Hd0) as (t' & Ht').
    rewrite Hdt, Ht', Number_toString_digits_large.
    + eauto.
    + pose proof (digits_length_large _ Hlarge) as Hl. rewrite Hdt in Hl. lia.
Qed.

(** ** Strings: reading back what QuoteJSONString writes *)

Lemma hex_value_hex_digit d : d < 16 -> hex_value (hex_digit d) = Some d.
Proof.
  intros Hd. unfold hex_digit, hex_value.
  destruct (N.ltb_spec d 10).
  - rewrite is_digit_of_digit by done. f_equal. unfold Ch.ZERO. lia.
  - replace (is_digit (87 + d)) with false
      by (symmetry; apply not_true_iff_false; rewrite is_digit_spec; lia).
    replace ((97 <=? 87 + d) && (87 + d <=? 102)) with true
      by (symmetry; rewrite andb_true_iff, !N.leb_le; lia).
    f_equal. lia.
Qed.

Lemma parse_UnicodeEscape c t :
  c < 65536 ->
  parse_string_chars (UnicodeEscape c ++ t) = prepend c (parse_string_chars t).
Proof.
  intros Hc. unfold UnicodeEscape. cbn [app parse_string_chars].
  change (Ch.BACKSLASH =? Ch.DQUOTE) with false.
  change (Ch.BACKSLASH =? Ch.BACKSLASH) with true.
  change (Ch.LOWER_U =? Ch.LOWER_U) with true. cbn iota.
  unfold hex4.
  rewrite !hex_value_hex_digit by (apply N.mod_lt; lia).
  replace (c / 4096 mod 16 * 4096 + c / 256 mod 16 * 256 + c / 16 mod 16 * 16 + c mod 16)
    with c; [done|].
  pose proof (N.div_mod c 16 ltac:(lia)).
  pose proof (N.div_mod (c / 16) 16 ltac:(lia)).
  pose proof (N.div_mod (c / 16 / 16) 16 ltac:(lia)).
  rewrite !N.Div0.div_div in *.
  change (16 * 16) with 256 in *. change (256 * 16) with 4096 in *.
  assert (c / 4096 < 16) by (apply N.Div0.div_lt_upper_bound; lia).
  rewrite (N.mod_small (c / 4096) 16) by done. lia.
Qed.

Lemma parse_plain_unit c t :
  32 <= c -> c <> Ch.DQUOTE -> c <> Ch.BACKSLASH ->
  parse_string_chars (c :: t) = prepend c (parse_string_chars t).
Proof.
  intros Hc Hq Hb. cbn [parse_string_chars].
  destruct (N.eqb_spec c Ch.DQUOTE); [done|].
  destruct (N.eqb_spec c Ch.BACKSLASH); [done|].
  destruct (N.ltb_spec c Ch.SPACE) as [Hlt|_]; [unfold Ch.SPACE in Hlt; lia|done].
Qed.

Lemma surrogate_bounds c :
  is_lead_surrogate c = true \/ is_trail_surrogate c = true ->
  55296 <= c < 65536.
Proof.
  unfold is_lead_surrogate, is_trail_surrogate.
  rewrite !andb_true_iff, !N.leb_le. lia.
Qed.

Lemma parse_quote_unit c t :
  parse_string_chars (quote_unit c ++ t) = prepend c (parse_string_chars t).
Proof.
  unfold quote_unit.
  destruct (N.eqb_spec c Ch.BACKSPACE) as [->|H1]; [done|].
  destruct (N.eqb_spec c Ch.TAB) as [->|H2]; [done|].
  destruct (N.eqb_spec c Ch.LF) as [->|H3]; [done|].
  destruct (N.eqb_spec c Ch.FF) as [->|H4]; [done|].
  destruct (N.eqb_spec c Ch.CR) as [->|H5]; [done|].
  destruct (N.eqb_spec c Ch.DQUOTE) as [->|H6]; [done|].
  destruct (N.eqb_spec c Ch.BACKSLASH) as [->|H7]; [done|].
  destruct (N.ltb_spec c Ch.SPACE) as [Hlt|Hge]; cbn [orb].
  - apply parse_UnicodeEscape. unfold Ch.SPACE in Hlt. lia.
  - destruct (is_lead_surrogate c) eqn:Hl; cbn [orb].
    { apply parse_UnicodeEscape. apply (surrogate_bounds c). by left. }
    destruct (is_trail_surrogate c) eqn:Ht.
    { apply parse_UnicodeEscape. apply (surrogate_bounds c). by right. }
    cbn [app]. by apply parse_plain_unit.
Qed.

Lemma parse_quote_units_bounded n : forall s rest,
  (length s <= n)%nat ->
  parse_string_chars (quote_units s ++ Ch.DQUOTE :: rest) = Some (s, rest).
Proof.
  induction n as [|n IH]; intros s rest Hlen.
  - destruct s; [done|cbn in Hlen; lia].
  - destruct s as [|c s]; [done|]. cbn [length] in Hlen.
    cbn [quote_units]. destruct (is_lead_surrogate c) eqn:Hl.
    + pose proof (surrogate_bounds c (or_introl Hl)) as Hc.
      destruct s as [|d s].
      * rewrite parse_UnicodeEscape by lia. done.
      * destruct (is_trail_surrogate d) eqn:Ht.
        -- pose proof (surrogate_bounds d (or_intror Ht)) as Hd.
           cbn [app].
           rewrite parse_plain_unit by (unfold Ch.DQUOTE, Ch.BACKSLASH; lia).
           rewrite parse_plain_unit by (unfold Ch.DQUOTE, Ch.BACKSLASH; lia).
           rewrite IH by (cbn [length] in Hlen; lia). done.
        -- rewrite <- app_assoc, parse_UnicodeEscape by lia.
           rewrite IH by lia. done.
    + rewrite <- app_assoc, parse_quote_unit, IH by lia. done.
Qed.

Lemma parse_string_chars_quote_units s rest :
  parse_string_chars (quote_units s ++ Ch.DQUOTE :: rest) = Some (s, rest).
Proof. by apply (parse_quote_units_bounded (length s)). Qed.

Lemma QuoteJSONString_app s rest :
  QuoteJSONString s ++ rest = Ch.DQUOTE :: quote_units s ++ Ch.DQUOTE :: rest.
Proof. unfold QuoteJSONString. cbn [app]. by rewrite <- app_assoc. Qed.

Lemma parse_string_QuoteJSONString s rest :
  parse_string (QuoteJSONString s ++ rest) = Some (s, rest).
Proof.
  rewrite QuoteJSONString_app. cbn [parse_string].
  change (Ch.DQUOTE =? Ch.DQUOTE) with true. cbn iota.
  apply parse_string_chars_quote_units.
Qed.

(** ** The parser, one step at a time *)

Lemma skip_ws_stop c s : is_whitespace c = false -> skip_ws (c :: s) = c :: s.
Proof. intros H. cbn [skip_ws]. by rewrite H. Qed.

Lemma parse_value_string fuel s rest :
  parse_value (S fuel) (QuoteJSONString s ++ rest) = Some (VStr s, rest).
Proof.
  rewrite QuoteJSONString_app. cbn [parse_value].
  rewrite skip_ws_stop by done.
  change (Ch.DQUOTE =? Ch.LBRACKET) with false.
  change (Ch.DQUOTE =? Ch.LBRACE) with false.
  change (Ch.DQUOTE =? Ch.DQUOTE) with true. cbn iota.
  by rewrite parse_string_chars_quote_units.
Qed.

Lemma parse_value_number fuel z rest :
  number_end rest ->
  parse_value (S fuel) (Number_toString (Int z) ++ rest) = Some (VNum (Int z), rest).
Proof.
  intros Hrest. pose proof (parse_number_toString z rest Hrest) as Hnum.
  destruct (Number_toString_head z) as (c & t & Hc & Hhead).
  rewrite Hc in *. cbn [app] in *. cbn [parse_value].
  assert (c = 45 \/ 48 <= c <= 57) as Hrange.
  { destruct Hhead as [->|Hd]; [by left|right; by apply is_digit_spec]. }
  assert (is_whitespace c = false) as Hws.
  { unfold is_whitespace, Ch.TAB, Ch.LF, Ch.CR, Ch.SPACE.
    rewrite !orb_false_iff, !N.eqb_neq. lia. }
  rewrite skip_ws_stop by done.
  destruct (N.eqb_spec c Ch.LBRACKET) as [E|_]; [unfold Ch.LBRACKET in E; lia|].
  destruct (N.eqb_spec c Ch.LBRACE) as [E|_]; [unfold Ch.LBRACE in E; lia|].
  destruct (N.eqb_spec c Ch.DQUOTE) as [E|_]; [unfold Ch.DQUOTE in E; lia|].
  destruct (N.eqb_spec c Ch.LOWER_N) as [E|_]; [unfold Ch.LOWER_N in E; lia|].
  destruct (N.eqb_spec c Ch.LOWER_T) as [E|_]; [unfold Ch.LOWER_T in E; lia|].
  destruct (N.eqb_spec c Ch.LOWER_F) as [E|_]; [unfold Ch.LOWER_F in E; lia|].
  by rewrite Hnum.
Qed.

Lemma parse_value_object fuel d s :
  is_whitespace d = false -> d <> Ch.RBRACE ->
  parse_value (S fuel) (Ch.LBRACE :: d :: s) =
    match parse_members fuel (d :: s) [] with
    | Some (props, rest) => Some (VObj props, rest)
    | None => None
    end.
Proof.
  intros Hws Hd. cbn [parse_value]. rewrite (skip_ws_stop Ch.LBRACE) by done.
  change (Ch.LBRACE =? Ch.LBRACKET) with false.
  change (Ch.LBRACE =? Ch.LBRACE) with true. cbn iota.
  rewrite skip_ws_stop by done. by destruct (N.eqb_spec d Ch.RBRACE).
Qed.

Lemma parse_value_array fuel d s :
  is_whitespace d = false -> d <> Ch.RBRACKET ->
  parse_value (S fuel) (Ch.LBRACKET :: d :: s) =
    match parse_elements fuel (d :: s) with
    | Some (elems, rest) => Some (VArr elems, rest)
    | None => None
    end.
Proof.
  intros Hws Hd. cbn [parse_value]. rewrite (skip_ws_stop Ch.LBRACKET) by done.
  change (Ch.LBRACKET =? Ch.LBRACKET) with true. cbn iota.
  rewrite skip_ws_stop by done. by destruct (N.eqb_spec d Ch.RBRACKET).
Qed.

Lemma parse_value_empty_array fuel rest :
  parse_value (S fuel) (Ch.LBRACKET :: Ch.RBRACKET :: rest) = Some (VArr [], rest).
Proof. reflexivity. Qed.

Lemma parse_members_more fuel k text o v rest :
  parse_value fuel text = Some (v, Ch.COMMA :: rest) ->
  parse_members (S fuel) (QuoteJSONString k ++ Ch.COLON :: text) o =
    parse_members fuel rest (CreateDataProperty o k v).
Proof.
  intros Hv. cbn [parse_members].
  rewrite QuoteJSONString_app, skip_ws_stop, <- QuoteJSONString_app by done.
  rewrite parse_string_QuoteJSONString, skip_ws_stop by done.
  change (Ch.COLON =? Ch.COLON) with true. cbn iota. rewrite Hv.
  by rewrite skip_ws_stop.
Qed.

Lemma parse_members_last fuel k text o v rest :
  parse_value fuel text = Some (v, Ch.RBRACE :: rest) ->
  parse_members (S fuel) (QuoteJSONString k ++ Ch.COLON :: text) o =
    Some (CreateDataProperty o k v, rest).
Proof.
  intros Hv. cbn [parse_members].
  rewrite QuoteJSONString_app, skip_ws_stop, <- QuoteJSONString_app by done.
  rewrite parse_string_QuoteJSONString, skip_ws_stop by done.
  change (Ch.COLON =? Ch.COLON) with true. cbn iota. rewrite Hv.
  by rewrite skip_ws_stop.
Qed.

Lemma parse_elements_more fuel text v rest :
  parse_value fuel text = Some (v, Ch.COMMA :: rest) ->
  parse_elements (S fuel) text =
    match parse_elements fuel rest with
    | Some (vs, rest') => Some (v :: vs, rest')
    | None => None
    end.
Proof. intros Hv. cbn [parse_elements]. rewrite Hv. by rewrite skip_ws_stop. Qed.

Lemma parse_elements_last fuel text v rest :
  parse_value fuel text = Some (v, Ch.RBRACKET :: rest) ->
  parse_elements (S fuel) text = Some ([v], rest).
Proof. intros Hv. cbn [parse_elements]. rewrite Hv. by rewrite skip_ws_stop. Qed.

(** ** Posts: reading back what JSON.stringify writes *)

Lemma Serialize_Post p rest :
  SerializeJSONProperty (Post_value p) ++ rest =
    Ch.LBRACE ::
    QuoteJSONString (u "id") ++ Ch.COLON ::
    Number_toString (Int (id p)) ++ Ch.COMMA ::
    QuoteJSONString (u "title") ++ Ch.COLON ::
    QuoteJSONString (title p) ++ Ch.COMMA ::
    QuoteJSONString (u "body") ++ Ch.COLON ::
    QuoteJSONString (body p) ++ Ch.RBRACE :: rest.
Proof.
  unfold Post_value. cbn [SerializeJSONProperty List.map join fst snd app].
  rewrite <- !app_assoc. cbn [app]. rewrite <- !app_assoc. cbn [app].
  rewrite <- !app_assoc. cbn [app]. reflexivity.
Qed.

Lemma Post_properties v1 v2 v3 :
  CreateDataProperty
    (CreateDataProperty (CreateDataProperty [] (u "id") v1) (u "title") v2)
    (u "body") v3
  = [(u "id", v1); (u "title", v2); (u "body", v3)].
Proof. reflexivity. Qed.

Lemma parse_value_Post fuel p rest :
  parse_value (5 + fuel) (SerializeJSONProperty (Post_value p) ++ rest) =
    Some (Post_value p, rest).
Proof.
  rewrite Serialize_Post. change (5 + fuel)%nat with (S (S (S (S (S fuel))))).
  rewrite (QuoteJSONString_app (u "id")), parse_value_object by done.
  rewrite <- (QuoteJSONString_app (u "id")).
  erewrite parse_members_more; last first.
  { by apply parse_value_number. }
  erewrite parse_members_more; last by apply parse_value_string.
  erewrite parse_members_last; last by apply parse_value_string.
  by rewrite Post_properties.
Qed.

Lemma Serialize_head p rest :
  exists s, SerializeJSONProperty (Post_value p) ++ rest = Ch.LBRACE :: Ch.DQUOTE :: s.
Proof. rewrite Serialize_Post, QuoteJSONString_app. eauto. Qed.

Lemma parse_elements_Posts ps : forall p fuel rest,
  parse_elements (6 + length ps + fuel)
    (join (List.map SerializeJSONProperty (List.map Post_value (p :: ps)))
     ++ Ch.RBRACKET :: rest) =
  Some (List.map Post_value (p :: ps), rest).
Proof.
  induction ps as [|p' ps IH]; intros p fuel rest.
  - cbn [List.map join length]. eapply parse_elements_last.
    apply (parse_value_Post fuel).
  - change (join (List.map SerializeJSONProperty (List.map Post_value (p :: p' :: ps))))
      with (SerializeJSONProperty (Post_value p) ++
            Ch.COMMA :: join (List.map SerializeJSONProperty (List.map Post_value (p' :: ps)))).
    rewrite <- app_assoc. cbn [app length].
    change (6 + S (length ps) + fuel)%nat with (S (5 + (S (length ps + fuel)))).
    erewrite parse_elements_more; last by apply parse_value_Post.
    replace (5 + S (length ps + fuel))%nat with (6 + length ps + fuel)%nat by lia.
    by rewrite IH.
Qed.

Lemma join_length (parts : list jsstring) :
  Forall (fun p => (1 <= length p)%nat) parts -> (length parts <= length (join parts))%nat.
Proof.
  induction 1 as [|p ps Hp Hps IH]; [done|].
  destruct ps as [|p' ps]; [cbn [join length]; lia|].
  change (join (p :: p' :: ps)) with (p ++ Ch.COMMA :: join (p' :: ps)).
  rewrite length_app. cbn [length] in *. lia.
Qed.

Lemma Serialize_Posts_length ps :
  (length ps + 2 <= length (JSON_stringify (Posts_value ps)))%nat.
Proof.
  unfold JSON_stringify, Posts_value. cbn [SerializeJSONProperty length].
  rewrite length_app. cbn [length].
  pose proof (join_length (List.map SerializeJSONProperty (List.map Post_value ps))) as H.
  rewrite !length_map in H. cut (length ps <= length (join (List.map SerializeJSONProperty (List.map Post_value ps))))%nat; [lia|].
  apply H. rewrite !Forall_map. apply Forall_forall. intros p _.
  destruct (Serialize_head p []) as (s & Hs). rewrite app_nil_r in Hs.
  rewrite Hs. cbn [length]. lia.
Qed.

(** Enough fuel, of any amount, reads a serialized collection back. *)
Lemma parse_value_Posts ps fuel :
  parse_value (6 + length ps + fuel) (JSON_stringify (Posts_value ps)) =
    Some (Posts_value ps, []).
Proof.
  unfold JSON_stringify, Posts_value.
  destruct ps as [|p ps]; [reflexivity|].
  cbn [SerializeJSONProperty].
  destruct (Serialize_head p
    (match ps with [] => [] | _ => Ch.COMMA :: join (List.map SerializeJSONProperty (List.map Post_value ps)) end
     ++ [Ch.RBRACKET])) as (s & Hs).
  assert (join (List.map SerializeJSONProperty (List.map Post_value (p :: ps))) ++ [Ch.RBRACKET]
          = Ch.LBRACE :: Ch.DQUOTE :: s) as Hhead.
  { rewrite <- Hs. destruct ps; cbn [List.map join app]; [done|].
    by rewrite <- app_assoc. }
  cbn [length]. change (6 + S (length ps) + fuel)%nat with (S (6 + length ps + fuel)).
  rewrite Hhead, parse_value_array, <- Hhead by done.
  by rewrite parse_elements_Posts.
Qed.

Lemma JSON_parse_stringify_Posts ps :
  JSON_parse (JSON_stringify (Posts_value ps)) = inr (Posts_value ps).
Proof.
  unfold JSON_parse.
  pose proof (Serialize_Posts_length ps) as Hlen.
  replace (2 * length (JSON_stringify (Posts_value ps)) + 2)%nat
    with (6 + length ps +
          (2 * length (JSON_stringify (Posts_value ps)) + 2 - (6 + length ps)))%nat by lia.
  by rewrite parse_value_Posts.
Qed.

Lemma Post_value_inj p q : Post_value p = Post_value q -> p = q.
Proof. destruct p, q. unfold Post_value. cbn. intros H. by inversion H. Qed.

Lemma Posts_value_inj ps qs : Posts_value ps = Posts_value qs -> ps = qs.
Proof.
  unfold Posts_value. intros H. inversion H as [Hmap]. clear H.
  revert qs Hmap.
  induction ps as [|p ps IH]; intros [|q qs] Hmap; cbn [List.map] in Hmap; try done.
  assert (Post_value p = Post_value q) as Hp by congruence.
  assert (List.map Post_value ps = List.map Post_value qs) as Hps by congruence.
  f_equal; [by apply Post_value_inj|by apply IH].
Qed.

(** ** The fuel of the parser

    What each part of the parser leaves is shorter than what it was
    given, and a text that is read with some fuel is read, to the same
    result, with any fuel from twice the length of what was consumed. *)

Lemma skip_ws_length s : (length (skip_ws s) <= length s)%nat.
Proof.
  induction s as [|c s IH]; cbn [skip_ws length]; [done|].
  destruct (is_whitespace c); cbn [length]; lia.
Qed.

Lemma skip_ws_cons_length s c s1 :
  skip_ws s = c :: s1 -> (length s1 < length s)%nat.
Proof.
  intros H. pose proof (skip_ws_length s) as Hl. rewrite H in Hl.
  cbn [length] in Hl. lia.
Qed.

Lemma prepend_length c r str rest n :
  prepend c r = Some (str, rest) ->
  (forall str', r = Some (str', rest) -> (length rest < n)%nat) ->
  (length rest < n)%nat.
Proof. destruct r as [[str' rest']|]; cbn; [|done]. intros [= <- <-] H. eauto. Qed.

Lemma parse_string_chars_length_bounded n : forall s str rest,
  (length s <= n)%nat ->
  parse_string_chars s = Some (str, rest) -> (length rest < length s)%nat.
Proof.
  induction n as [|n IH]; intros s str rest Hn.
  - destruct s; [done|cbn in Hn; lia].
  - destruct s as [|c s]; [done|]. cbn [length] in Hn. cbn [parse_string_chars].
    destruct (c =? Ch.DQUOTE); [intros [= <- <-]; cbn [length]; lia|].
    destruct (c =? Ch.BACKSLASH).
    + destruct s as [|e s]; [done|]. destruct (e =? Ch.LOWER_U).
      * destruct s as [|h1 [|h2 [|h3 [|h4 s]]]]; try done.
        destruct (hex4 h1 h2 h3 h4); [|done].
        intros H. eapply prepend_length; [exact H|]. intros str' H'.
        apply IH in H'; cbn [length] in *; lia.
      * destruct (simple_escape e); [|done].
        intros H. eapply prepend_length; [exact H|]. intros str' H'.
        apply IH in H'; cbn [length] in *; lia.
    + destruct (c <? Ch.SPACE); [done|].
      intros H. eapply prepend_length; [exact H|]. intros str' H'.
      apply IH in H'; cbn [length] in *; lia.
Qed.

Lemma parse_string_chars_length s str rest :
  parse_string_chars s = Some (str, rest) -> (length rest < length s)%nat.
Proof. by apply (parse_string_chars_length_bounded (length s)). Qed.

Lemma parse_string_length s str rest :
  parse_string s = Some (str, rest) -> (length rest < length s)%nat.
Proof.
  destruct s as [|c s]; [done|]. cbn [parse_string].
  destruct (c =? Ch.DQUOTE); [|done].
  intros H%parse_string_chars_length. cbn [length]. lia.
Qed.

Lemma strip_prefix_length p : forall s rest,
  strip_prefix p s = Some rest -> (length rest + length p = length s)%nat.
Proof.
  induction p as [|a p IH]; intros s rest; cbn [strip_prefix].
  - intros [= ->]. cbn [length]. lia.
  - destruct s as [|b s]; [done|]. destruct (a =? b); [|done].
    intros H%IH. cbn [length]. lia.
Qed.

Lemma digits_run_length s : forall acc count v count' rest,
  digits_run s acc count = (v, count', rest) -> (length rest <= length s)%nat.
Proof.
  induction s as [|c s IH]; intros acc count v count' rest; cbn [digits_run].
  - by intros [= _ _ <-].
  - destruct (is_digit c).
    + intros H%IH. cbn [length]. lia.
    + by intros [= _ _ <-].
Qed.

Lemma parse_number_length s x rest :
  parse_number s = Some (x, rest) -> (length rest < length s)%nat.
Proof.
  unfold parse_number.
  assert (forall s1 i s2, parse_int_part s1 = Some (i, s2) ->
            (length s2 < length s1)%nat) as Hint.
  { intros s1 i s2. unfold parse_int_part. destruct s1 as [|c s1]; [done|].
    destruct (c =? Ch.ZERO); [intros [= _ <-]; cbn [length]; lia|].
    destruct (is_digit c) eqn:Hc; [|done]. cbn [digits_run]. rewrite Hc.
    destruct (digits_run s1 _ _) as [[v count] rest'] eqn:Hrun.
    apply digits_run_length in Hrun. intros [= _ <-]. cbn [length]. lia. }
  assert (forall s2 f fcount s3, parse_frac_part s2 = Some (f, fcount, s3) ->
            (length s3 <= length s2)%nat) as Hfrac.
  { intros s2 f fcount s3. unfold parse_frac_part. destruct s2 as [|c s2].
    - by intros [= _ _ <-].
    - destruct (c =? Ch.DOT); [|by intros [= _ _ <-]].
      destruct (digits_run s2 _ _) as [[v count] rest'] eqn:Hrun.
      apply digits_run_length in Hrun. destruct count; [done|].
      intros [= _ _ <-]. cbn [length]. lia. }
  assert (forall s3 e s4, parse_exp_part s3 = Some (e, s4) ->
            (length s4 <= length s3)%nat) as Hexp.
  { intros s3 e s4. unfold parse_exp_part. destruct s3 as [|c s3].
    - by intros [= _ <-].
    - destruct ((c =? Ch.LOWER_E) || (c =? Ch.UPPER_E)); [|by intros [= _ <-]].
      assert (exists negative s', (length s' <= length s3)%nat /\
                match s3 with
                | d :: t => if d =? Ch.MINUS then (true, t)
                            else if d =? Ch.PLUS then (false, t) else (false, s3)
                | [] => (false, s3)
                end = (negative, s')) as (negative & s' & Hs' & ->).
      { destruct s3 as [|d t]; [by eexists _, _|].
        destruct (d =? Ch.MINUS); [eexists _, _; split; [|done]; cbn [length]; lia|].
        destruct (d =? Ch.PLUS); eexists _, _; (split; [|done]); cbn [length]; lia. }
      destruct (digits_run s' _ _) as [[v count] rest'] eqn:Hrun.
      apply digits_run_length in Hrun. destruct count; [done|].
      intros [= _ <-]. cbn [length]. lia. }
  destruct (match s with
            | c :: s' => if c =? Ch.MINUS then (true, s') else (false, s)
            | [] => (false, s)
            end) as [negative s1] eqn:Hsign.
  assert (length s1 <= length s)%nat as Hs1.
  { destruct s as [|c s']; [by injection Hsign as _ <-|].
    destruct (c =? Ch.MINUS); injection Hsign as _ <-; cbn [length]; lia. }
  destruct (parse_int_part s1) as [[i s2]|] eqn:Hi; [|done].
  destruct (parse_frac_part s2) as [[[f fcount] s3]|] eqn:Hf; [|done].
  destruct (parse_exp_part s3) as [[e s4]|] eqn:He; [|done].
  intros [= _ <-]. apply Hint in Hi. apply Hfrac in Hf. apply Hexp in He. lia.
Qed.

Ltac lens := cbn [length] in *; lia.

Lemma parse_fuel f :
  (forall s v rest, parse_value f s = Some (v, rest) ->
     (length rest < length s)%nat /\
     forall f', (2 * (length s - length rest) <= f')%nat ->
                parse_value f' s = Some (v, rest)) /\
  (forall s vs rest, parse_elements f s = Some (vs, rest) ->
     (length rest < length s)%nat /\
     forall f', (2 * (length s - length rest) + 1 <= f')%nat ->
                parse_elements f' s = Some (vs, rest)) /\
  (forall s o props rest, parse_members f s o = Some (props, rest) ->
     (length rest < length s)%nat /\
     forall f', (2 * (length s - length rest) <= f')%nat ->
                parse_members f' s o = Some (props, rest)).
Proof.
  induction f as [|f (IHv & IHe & IHm)]; [by repeat split|].
  split; [|split].
  - intros s v rest H. cbn [parse_value] in H.
    destruct (skip_ws s) as [|c s1] eqn:Hws; [done|].
    pose proof (skip_ws_cons_length _ _ _ Hws) as Hl.
    destruct (c =? Ch.LBRACKET) eqn:E1.
    { destruct (skip_ws s1) as [|d s2] eqn:Hws1; [done|].
      pose proof (skip_ws_cons_length _ _ _ Hws1) as Hl1.
      destruct (d =? Ch.RBRACKET) eqn:E2.
      - simplify_eq. split; [lia|]. intros [|f'] Hf'; [lens|].
        cbn [parse_value]. by rewrite Hws, E1, Hws1, E2.
      - destruct (parse_elements f (d :: s2)) as [[elems rest']|] eqn:He; [|done].
        simplify_eq. apply IHe in He as [Hlen Hfuel].
        split; [lens|]. intros [|f'] Hf'; [lens|].
        cbn [parse_value]. rewrite Hws, E1, Hws1, E2, Hfuel; [done|lens]. }
    destruct (c =? Ch.LBRACE) eqn:E2.
    { destruct (skip_ws s1) as [|d s2] eqn:Hws1; [done|].
      pose proof (skip_ws_cons_length _ _ _ Hws1) as Hl1.
      destruct (d =? Ch.RBRACE) eqn:E3.
      - simplify_eq. split; [lia|]. intros [|f'] Hf'; [lens|].
        cbn [parse_value]. by rewrite Hws, E1, E2, Hws1, E3.
      - destruct (parse_members f (d :: s2) []) as [[props rest']|] eqn:Hm; [|done].
        simplify_eq. apply IHm in Hm as [Hlen Hfuel].
        split; [lens|]. intros [|f'] Hf'; [lens|].
        cbn [parse_value]. rewrite Hws, E1, E2, Hws1, E3, Hfuel; [done|lens]. }
    destruct (c =? Ch.DQUOTE) eqn:E3.
    { destruct (parse_string_chars s1) as [[str rest']|] eqn:Hs; [|done].
      simplify_eq. apply parse_string_chars_length in Hs as Hlen.
      split; [lia|]. intros [|f'] Hf'; [lens|].
      cbn [parse_value]. by rewrite Hws, E1, E2, E3, Hs. }
    destruct (c =? Ch.LOWER_N) eqn:E4.
    { destruct (strip_prefix (u "null") (c :: s1)) as [rest'|] eqn:Hs; [|done].
      simplify_eq. apply strip_prefix_length in Hs as Hlen.
      change (length (u "null")) with 4%nat in Hlen.
      split; [lens|]. intros [|f'] Hf'; [lens|].
      cbn [parse_value]. by rewrite Hws, E1, E2, E3, E4, Hs. }
    destruct (c =? Ch.LOWER_T) eqn:E5.
    { destruct (strip_prefix (u "true") (c :: s1)) as [rest'|] eqn:Hs; [|done].
      simplify_eq. apply strip_prefix_length in Hs as Hlen.
      change (length (u "true")) with 4%nat in Hlen.
      split; [lens|]. intros [|f'] Hf'; [lens|].
      cbn [parse_value]. by rewrite Hws, E1, E2, E3, E4, E5, Hs. }
    destruct (c =? Ch.LOWER_F) eqn:E6.
    { destruct (strip_prefix (u "false") (c :: s1)) as [rest'|] eqn:Hs; [|done].
      simplify_eq. apply strip_prefix_length in Hs as Hlen.
      change (length (u "false")) with 5%nat in Hlen.
      split; [lens|]. intros [|f'] Hf'; [lens|].
      cbn [parse_value]. by rewrite Hws, E1, E2, E3, E4, E5, E6, Hs. }
    destruct (parse_number (c :: s1)) as [[x rest']|] eqn:Hn; [|done].
    simplify_eq. apply parse_number_length in Hn as Hlen.
    split; [lens|]. intros [|f'] Hf'; [lens|].
    cbn [parse_value]. by rewrite Hws, E1, E2, E3, E4, E5, E6, Hn.
  - intros s vs rest H. cbn [parse_elements] in H.
    destruct (parse_value f s) as [[v r1]|] eqn:Hv; [|done].
    apply IHv in Hv as [Hlen1 Hfuel1].
    destruct (skip_ws r1) as [|c r2] eqn:Hws; [done|].
    pose proof (skip_ws_cons_length _ _ _ Hws) as Hl.
    destruct (c =? Ch.COMMA) eqn:E1.
    + destruct (parse_elements f r2) as [[vs' rest']|] eqn:He; [|done].
      simplify_eq. apply IHe in He as [Hlen2 Hfuel2].
      split; [lia|]. intros [|f'] Hf'; [lia|].
      cbn [parse_elements]. rewrite Hfuel1 by lia. rewrite Hws, E1, Hfuel2; [done|lia].
    + destruct (c =? Ch.RBRACKET) eqn:E2; [|done]. simplify_eq.
      split; [lia|]. intros [|f'] Hf'; [lia|].
      cbn [parse_elements]. rewrite Hfuel1 by lia. by rewrite Hws, E1, E2.
  - intros s o props rest H. cbn [parse_members] in H.
    pose proof (skip_ws_length s) as Hl0.
    destruct (parse_string (skip_ws s)) as [[k r0]|] eqn:Hk; [|done].
    apply parse_string_length in Hk as Hlk.
    destruct (skip_ws r0) as [|c r1] eqn:Hws; [done|].
    pose proof (skip_ws_cons_length _ _ _ Hws) as Hl1.
    destruct (c =? Ch.COLON) eqn:E1; [|done].
    destruct (parse_value f r1) as [[v r2]|] eqn:Hv; [|done].
    apply IHv in Hv as [Hlen1 Hfuel1]. cbn zeta in H.
    destruct (skip_ws r2) as [|d r3] eqn:Hws2; [done|].
    pose proof (skip_ws_cons_length _ _ _ Hws2) as Hl2.
    destruct (d =? Ch.COMMA) eqn:E2.
    + apply IHm in H as [Hlen2 Hfuel2].
      split; [lia|]. intros [|f'] Hf'; [lia|].
      cbn [parse_members]. rewrite Hk, Hws, E1, Hfuel1 by lia. cbn zeta.
      rewrite Hws2, E2. apply Hfuel2. lia.
    + destruct (d =? Ch.RBRACE) eqn:E3; [|done]. simplify_eq.
      split; [lia|]. intros [|f'] Hf'; [lia|].
      cbn [parse_members]. rewrite Hk, Hws, E1, Hfuel1 by lia. cbn zeta.
      by rewrite Hws2, E2, E3.
Qed.

(** No text is rejected for lack of fuel: what some fuel reads, the fuel
    of [JSON_parse] reads. *)
Lemma parse_value_enough_fuel f text v rest :
  parse_value f text = Some (v, rest) ->
  parse_value (2 * length text + 2) text = Some (v, rest).
Proof.
  intros H. destruct (parse_fuel f) as (Hv & _ & _).
  apply Hv in H as [Hlen Hfuel]. apply Hfuel. lia.
Qed.

(** So a text that [JSON_parse] rejects is one that no amount of fuel
    reads to its end. *)
Lemma JSON_parse_rejects text e f v rest :
  JSON_parse text = inl e ->
  parse_value f text = Some (v, rest) -> skip_ws rest <> [].
Proof.
  unfold JSON_parse. intros He Hf Hrest.
  rewrite (parse_value_enough_fuel f text v rest Hf), Hrest in He. done.
Qed.

(** ** The hooks *)

Ltac run_async :=
  unfold lift, bind, ret, throw, localStorage_getItem, localStorage_setItem;
  cbn beta iota; cbn [fst snd localStorage calls queryCache newPost].

Lemma JSON_parse_empty_text : JSON_parse [] = inl (JSON_SyntaxError []).
Proof. reflexivity. Qed.

Lemma JSON_parse_empty_array : JSON_parse (u "[]") = inr (VArr []).
Proof. reflexivity. Qed.

Lemma JSON_parse_inr_nonempty text v : JSON_parse text = inr v -> text <> [].
Proof. intros H ->. by rewrite JSON_parse_empty_text in H. Qed.

Lemma not_string_nonempty text : text <> [] -> not_string (Some text) = false.
Proof. by destruct text. Qed.

Lemma JSON_stringify_Posts_nonempty ps : JSON_stringify (Posts_value ps) <> [].
Proof. done. Qed.

(** The error of [JSON.parse] is a SyntaxError with a message. *)
Lemma JSON_parse_error text e :
  JSON_parse text = inl e -> name e = SyntaxError /\ message e <> [].
Proof.
  assert (name (JSON_SyntaxError text) = SyntaxError /\
          message (JSON_SyntaxError text) <> []) as Herr.
  { split; [done|]. unfold JSON_SyntaxError. cbn [message].
    by destruct (skip_ws text). }
  unfold JSON_parse. intros H.
  destruct (parse_value _ text) as [[v rest]|]; [destruct (skip_ws rest)|];
    by simplify_eq.
Qed.

Lemma usePosts_queryFn_absent w :
  not_string (localStorage w !! POSTS) = true ->
  usePosts_queryFn w =
    (Fulfilled (VArr []),
     mkWorld (<[POSTS := u "[]"]> (localStorage w))
       (calls w ++ [GetItem POSTS; SetItem POSTS (u "[]")]) (queryCache w)).
Proof.
  intros H. unfold usePosts_queryFn. run_async. rewrite H. cbn.
  by rewrite <- app_assoc.
Qed.

Lemma usePosts_queryFn_present w text :
  localStorage w !! POSTS = Some text -> text <> [] ->
  usePosts_queryFn w =
    (match JSON_parse text with
     | inr v => Fulfilled v
     | inl e => Rejected e
     end,
     mkWorld (localStorage w) (calls w ++ [GetItem POSTS]) (queryCache w)).
Proof.
  intros H Htext. unfold usePosts_queryFn. run_async.
  rewrite H, not_string_nonempty by done. cbn [nullish].
  by destruct (JSON_parse text).
Qed.

(** One run of the mutation function on a store that holds the
    collection [elems], or none when [elems] is empty. *)
Lemma useAddPost_mutationFn_array newPost w elems :
  JSON_parse (nullish (localStorage w !! POSTS) (u "[]")) = inr (VArr elems) ->
  useAddPost_mutationFn (mkVariables newPost) w =
    (Fulfilled newPost,
     mkWorld
       (<[POSTS := JSON_stringify (VArr (elems ++ [Post_value newPost]))]> (localStorage w))
       (calls w ++ [GetItem POSTS;
                    SetItem POSTS (JSON_stringify (VArr (elems ++ [Post_value newPost])))])
       (queryCache w)).
Proof.
  intros H. unfold useAddPost_mutationFn. run_async. rewrite H.
  cbn [Array_push]. run_async. by rewrite <- app_assoc.
Qed.

Lemma useAddPost_mutationFn_cache newPost w :
  queryCache (snd (useAddPost_mutationFn (mkVariables newPost) w)) = queryCache w.
Proof.
  unfold useAddPost_mutationFn. run_async.
  destruct (JSON_parse _) as [e|response]; [done|]. run_async.
  by destruct (Array_push response _) as [e|response'].
Qed.

(** The success handler does not touch the storage: no call is made and
    no item changes. *)
Lemma useAddPost_onSuccess_storage post w :
  localStorage (snd (useAddPost_onSuccess post w)) = localStorage w /\
  calls (snd (useAddPost_onSuccess post w)) = calls w.
Proof.
  unfold useAddPost_onSuccess, QueryClient_setQueryData.
  by destruct (spread _).
Qed.

Lemma useAddPost_onSuccess_other_keys post w key :
  key <> [inl POSTS] ->
  queryCache (snd (useAddPost_onSuccess post w)) !! key = queryCache w !! key.
Proof.
  intros Hkey. unfold useAddPost_onSuccess, QueryClient_setQueryData.
  destruct (spread _); [done|]. cbn [snd queryCache].
  by rewrite lookup_insert_ne.
Qed.

Lemma useAddPost_onSuccess_list post w elems :
  nullish_value (QueryClient_getQueryData [inl POSTS] w) (VArr []) = VArr elems ->
  useAddPost_onSuccess post w =
    (Fulfilled (VArr (elems ++ [Post_value post])),
     mkWorld (localStorage w) (calls w)
       (<[[inl POSTS] := mkQuery success (Some (VArr (elems ++ [Post_value post]))) None]>
          (queryCache w))).
Proof.
  intros H. unfold useAddPost_onSuccess, QueryClient_setQueryData. by rewrite H.
Qed.

Lemma mutate_unfold {V R} (opts : MutationOptions V R) variables w :
  mutate opts variables w =
    match mutationFn opts variables w with
    | (Fulfilled r, w1) =>
        match onSuccess opts r w1 with
        | (Fulfilled _, w2) => (Fulfilled r, w2)
        | (Rejected e, w2) => (Rejected e, w2)
        end
    | (Rejected e, w1) => (Rejected e, w1)
    end.
Proof.
  unfold mutate, bind, ret. destruct (mutationFn opts variables w) as [[r|e] w1]; [|done].
  by destruct (onSuccess opts r w1) as [[x|e] w2].
Qed.

(** The storage after a mutation is the storage after its function. *)
Lemma mutate_useAddPost_storage p w :
  localStorage (snd (mutate useAddPost (mkVariables p) w)) =
    localStorage (snd (useAddPost_mutationFn (mkVariables p) w)) /\
  calls (snd (mutate useAddPost (mkVariables p) w)) = calls (snd (useAddPost_mutationFn (mkVariables p) w)).
Proof.
  rewrite mutate_unfold. cbn [mutationFn onSuccess useAddPost].
  destruct (useAddPost_mutationFn (mkVariables p) w) as [[r|e] w1]; [|done].
  pose proof (useAddPost_onSuccess_storage r w1) as Hs.
  by destruct (useAddPost_onSuccess r w1) as [[x|e] w2].
Qed.

Lemma stored_collection_after_add p qs w :
  stored_collection w = inr (Posts_value qs) ->
  stored_collection (snd (mutate useAddPost (mkVariables p) w)) = inr (Posts_value (qs ++ [p])).
Proof.
  intros Hw. unfold stored_collection in *.
  destruct (mutate_useAddPost_storage p w) as [-> _].
  rewrite (useAddPost_mutationFn_array p w _ Hw). cbn [snd localStorage].
  rewrite lookup_insert_eq. cbn [nullish].
  change (VArr (List.map Post_value qs ++ [Post_value p]))
    with (VArr (List.map Post_value qs ++ List.map Post_value [p])).
  rewrite <- List.map_app. apply JSON_parse_stringify_Posts.
Qed.

Lemma stored_collection_addPosts ps : forall qs w,
  stored_collection w = inr (Posts_value qs) ->
  stored_collection (addPosts ps w) = inr (Posts_value (qs ++ ps)).
Proof.
  induction ps as [|p ps IH]; intros qs w Hw.
  - by rewrite app_nil_r.
  - cbn [addPosts]. replace (qs ++ p :: ps) with ((qs ++ [p]) ++ ps)
      by (by rewrite <- app_assoc).
    apply IH. by apply stored_collection_after_add.
Qed.

Lemma calls_after_add p qs w :
  stored_collection w = inr (Posts_value qs) ->
  calls (snd (mutate useAddPost (mkVariables p) w)) =
    calls w ++ [GetItem POSTS; SetItem POSTS (JSON_stringify (Posts_value (qs ++ [p])))].
Proof.
  intros Hw. destruct (mutate_useAddPost_storage p w) as [_ ->].
  rewrite (useAddPost_mutationFn_array p w _ Hw). cbn [snd calls newPost].
  unfold Posts_value. by rewrite List.map_app.
Qed.

Lemma calls_addPosts ps : forall qs w,
  stored_collection w = inr (Posts_value qs) ->
  calls (addPosts ps w) = calls w ++ add_calls qs ps.
Proof.
  induction ps as [|p ps IH]; intros qs w Hw; cbn [addPosts add_calls].
  - by rewrite app_nil_r.
  - rewrite (IH (qs ++ [p])) by (by apply stored_collection_after_add).
    by rewrite (calls_after_add p qs w Hw), <- app_assoc.
Qed.

Lemma add_calls_length ps : forall qs, length (add_calls qs ps) = (2 * length ps)%nat.
Proof.
  induction ps as [|p ps IH]; intros qs; cbn [add_calls length]; [done|].
  rewrite IH. lia.
Qed.

(** ** [post.id === postId] over a collection of Posts *)

Lemma get_id_Post p : get_id (Post_value p) = inr (Some (VNum (Int (id p)))).
Proof. reflexivity. Qed.

Lemma find_first_no_match ps postId :
  Forall (fun p => id p <> postId) ps ->
  find_first (List.map Post_value ps)
    (fun post =>
       match get_id post with
       | inr x => inr (strict_equal x postId)
       | inl e => inl e
       end) = inr None.
Proof.
  induction 1 as [|p ps Hp _ IH]; [done|].
  cbn [List.map find_first]. rewrite get_id_Post. cbn [strict_equal number_eqb].
  by destruct (Z.eqb_spec (id p) postId).
Qed.

(** ** Random numbers *)

Lemma Qpower2_pos z : (0 < 2 ^ z)%Q.
Proof. by apply Qpower_0_lt. Qed.

Lemma Qpower2_inject z : (0 <= z)%Z -> (inject_Z (2 ^ z) == 2 ^ z)%Q.
Proof. intros Hz. by rewrite (Zpower_Qpower 2 z Hz). Qed.

Lemma Qpower2_le a b : (a <= b)%Z -> (2 ^ a <= 2 ^ b)%Q.
Proof. intros H. by apply Qpower_le_compat_l. Qed.

Lemma Qpower2_lt_inv a b : (2 ^ a < 2 ^ b)%Q -> (a < b)%Z.
Proof. intros H. by apply (Qpower_lt_compat_l_inv 2). Qed.

Lemma floor_log2_candidates n d :
  (0 < n)%Z ->
  (2 ^ (Z.log2 n - Z.log2 (Z.pos d) - 1) <= n # d)%Q /\
  (n # d < 2 ^ (Z.log2 n - Z.log2 (Z.pos d) + 1))%Q.
Proof.
  intros Hn.
  destruct (Z.log2_spec n Hn) as [Hn1 Hn2].
  destruct (Z.log2_spec (Z.pos d) (Pos2Z.is_pos d)) as [Hd1 Hd2].
  pose proof (Z.log2_nonneg n) as Hln. pose proof (Z.log2_nonneg (Z.pos d)) as Hld.
  set (ln := Z.log2 n) in *. set (ld := Z.log2 (Z.pos d)) in *.
  assert (0 < inject_Z (Z.pos d))%Q as Hdpos by (by apply (Qlt_alt 0 (inject_Z (Z.pos d)))).
  rewrite (Qmake_Qdiv n d). split.
  - apply Qle_shift_div_l; [done|].
    apply Qle_trans with (2 ^ (ln - ld - 1) * 2 ^ (ld + 1))%Q.
    + apply Qmult_le_l; [apply Qpower2_pos|].
      rewrite <- Qpower2_inject by lia. rewrite <- Zle_Qle. unfold Z.succ in Hd2. lia.
    + rewrite <- Qpower_plus by done.
      replace (ln - ld - 1 + (ld + 1))%Z with ln by lia.
      rewrite <- Qpower2_inject by lia. by rewrite <- Zle_Qle.
  - apply Qlt_shift_div_r; [done|].
    apply Qlt_le_trans with (2 ^ (ln - ld + 1) * 2 ^ ld)%Q.
    + rewrite <- Qpower_plus by done.
      replace (ln - ld + 1 + ld)%Z with (ln + 1)%Z by lia.
      rewrite <- Qpower2_inject by lia. rewrite <- Zlt_Qlt. unfold Z.succ in Hn2. lia.
    + apply Qmult_le_l; [apply Qpower2_pos|].
      rewrite <- Qpower2_inject by lia. by rewrite <- Zle_Qle.
Qed.

Lemma floor_log2_spec x :
  (0 < x)%Q -> (2 ^ floor_log2 x <= x)%Q /\ (x < 2 ^ (floor_log2 x + 1))%Q.
Proof.
  intros Hx. destruct x as [n d].
  assert (0 < n)%Z as Hn.
  { unfold Qlt in Hx. cbn [Qnum Qden] in Hx. lia. }
  destruct (floor_log2_candidates n d Hn) as [Hlo Hhi].
  unfold floor_log2. cbn [Qnum Qden].
  set (e := (Z.log2 n - Z.log2 (Z.pos d))%Z) in *.
  destruct (Qle_bool (2 ^ e) (n # d)) eqn:Hle.
  - split; [by apply Qle_bool_iff|done].
  - split; [done|]. replace (e - 1 + 1)%Z with e by lia.
    apply Qnot_le_lt. intros H. apply Qle_bool_iff in H. congruence.
Qed.

Lemma round_half_even_upper y : (inject_Z (round_half_even y) <= y + (1 # 2))%Q.
Proof.
  unfold round_half_even. pose proof (Qfloor_le y) as Hf.
  assert (forall a : Q, (a <= y)%Q -> (a <= y + (1 # 2))%Q) as Hweak.
  { intros a Ha. apply Qle_trans with (y + 0)%Q; [by rewrite Qplus_0_r|].
    by apply Qplus_le_r. }
  assert ((1 # 2) <= y - inject_Z (Qfloor y) ->
          inject_Z (Qfloor y + 1) <= y + (1 # 2))%Q as Hup.
  { intros H. rewrite inject_Z_plus. change (inject_Z 1) with 1%Q.
    assert (inject_Z (Qfloor y) + 1 == (1 # 2) + (inject_Z (Qfloor y) + (1 # 2)))%Q
      as -> by ring.
    assert (y + (1 # 2) == (y - inject_Z (Qfloor y)) + (inject_Z (Qfloor y) + (1 # 2)))%Q
      as -> by ring.
    by apply Qplus_le_l. }
  destruct (Qcompare _ _) eqn:Hc.
  - apply Qeq_alt in Hc. destruct (Z.even _); [by apply Hweak|].
    apply Hup. rewrite Hc. apply Qle_refl.
  - by apply Hweak.
  - apply Hup. apply Qlt_le_weak. by apply Qgt_alt in Hc.
Qed.

Lemma round_half_even_nonneg y : (0 <= y)%Q -> (0 <= round_half_even y)%Z.
Proof.
  intros Hy. assert (0 <= Qfloor y)%Z as Hf.
  { change 0%Z with (Qfloor 0). by apply Qfloor_resp_le. }
  unfold round_half_even. destruct (Qcompare _ _); [destruct (Z.even _)| |]; lia.
Qed.

Lemma ulp_pos x : (0 < ulp x)%Q.
Proof. apply Qpower2_pos. Qed.

Lemma round_binary64_nonneg x : (0 <= round_binary64 x)%Q.
Proof.
  unfold round_binary64. destruct (Qle_bool x 0) eqn:Hx; [done|].
  assert (0 < x)%Q as Hpos.
  { apply Qnot_le_lt. intros H. apply Qle_bool_iff in H. congruence. }
  apply Qmult_le_0_compat; [|apply Qlt_le_weak, ulp_pos].
  change 0%Q with (inject_Z 0). rewrite <- Zle_Qle. apply round_half_even_nonneg.
  apply Qle_shift_div_l; [apply ulp_pos|]. rewrite Qmult_0_l. by apply Qlt_le_weak.
Qed.

Lemma round_binary64_upper x : (0 < x)%Q -> (round_binary64 x <= x + ulp x * (1 # 2))%Q.
Proof.
  intros Hx. unfold round_binary64.
  destruct (Qle_bool x 0) eqn:Hle.
  { apply Qle_bool_iff in Hle. exfalso. by apply (Qlt_not_le _ _ Hx). }
  pose proof (ulp_pos x) as Hu.
  apply Qle_trans with ((x / ulp x + (1 # 2)) * ulp x)%Q.
  - apply Qmult_le_r; [done|]. apply round_half_even_upper.
  - assert (~ ulp x == 0)%Q as Hnz by (intros H; rewrite H in Hu; discriminate).
    apply Qle_lteq. right. field. exact Hnz.
Qed.

Lemma ulp_small x : (0 < x)%Q -> (x < 2 ^ 17)%Q -> (ulp x <= 2 ^ (-36))%Q.
Proof.
  intros Hx Hlt. destruct (floor_log2_spec x Hx) as [Hlo _].
  assert (floor_log2 x < 17)%Z as He.
  { apply Qpower2_lt_inv. by apply Qle_lt_trans with x. }
  unfold ulp. apply Qpower2_le. lia.
Qed.

Lemma binary64_below_1 r :
  is_binary64 r = true -> (r < 1)%Q -> (r <= 1 - 2 ^ (-53))%Q.
Proof.
  unfold is_binary64, round_binary64. intros Hb Hlt.
  destruct (Qle_bool r 0) eqn:Hle.
  { apply Qle_bool_iff in Hle. by apply Qle_trans with 0%Q. }
  assert (0 < r)%Q as Hpos.
  { apply Qnot_le_lt. intros H. apply Qle_bool_iff in H. congruence. }
  apply Qeq_bool_iff in Hb.
  destruct (floor_log2_spec r Hpos) as [Hlo Hhi].
  assert (floor_log2 r < 0)%Z as He.
  { apply Qpower2_lt_inv. by apply Qle_lt_trans with r. }
  destruct (Z.eq_dec (floor_log2 r) (-1)%Z) as [He1|He1].
  - unfold ulp in Hb. rewrite He1 in Hb.
    change (2 ^ Z.max (-1 - 52) (-1074))%Q with (2 ^ (-53))%Q in Hb.
    set (N := round_half_even _) in Hb.
    assert (N <= 2 ^ 53 - 1)%Z as HN.
    { cut (N < 2 ^ 53)%Z; [lia|]. rewrite Zlt_Qlt.
      apply (Qmult_lt_r _ _ (2 ^ (-53))%Q); [done|]. rewrite Hb.
      by apply Qlt_le_trans with 1%Q. }
    rewrite <- Hb. apply Qle_trans with (inject_Z (2 ^ 53 - 1) * 2 ^ (-53))%Q.
    + apply Qmult_le_r; [done|]. by rewrite <- Zle_Qle.
    + done.
  - apply Qle_trans with (2 ^ (-1))%Q; [|done].
    apply Qlt_le_weak, Qlt_le_trans with (2 ^ (floor_log2 r + 1))%Q; [done|].
    apply Qpower2_le. lia.
Qed.

Lemma Number_multiply_random r :
  is_binary64 r = true -> (0 <= r)%Q -> (r < 1)%Q ->
  (0 <= Number_multiply r 100000)%Q /\ (Number_multiply r 100000 < 100000)%Q.
Proof.
  intros Hb H0 H1. unfold Number_multiply. split; [apply round_binary64_nonneg|].
  pose proof (binary64_below_1 r Hb H1) as Hr.
  destruct (Qle_bool (r * 100000) 0) eqn:Hle.
  { unfold round_binary64. by rewrite Hle. }
  assert (0 < r * 100000)%Q as Hpos.
  { apply Qnot_le_lt. intros H. apply Qle_bool_iff in H. congruence. }
  assert (r * 100000 <= (1 - 2 ^ (-53)) * 100000)%Q as Hx by (by apply Qmult_le_r).
  assert (ulp (r * 100000) <= 2 ^ (-36))%Q as Hu.
  { apply ulp_small; [done|]. by apply Qle_lt_trans with ((1 - 2 ^ (-53)) * 100000)%Q. }
  apply Qle_lt_trans with (r * 100000 + ulp (r * 100000) * (1 # 2))%Q;
    [by apply round_binary64_upper|].
  apply Qle_lt_trans with ((1 - 2 ^ (-53)) * 100000 + 2 ^ (-36) * (1 # 2))%Q; [|done].
  apply Qplus_le_compat; [done|]. by apply Qmult_le_r.
Qed.

Lemma Math_trunc_floor y :
  (0 <= y)%Q ->
  (inject_Z (Math_trunc y) <= y)%Q /\ (y < inject_Z (Math_trunc y) + 1)%Q.
Proof.
  intros Hy. assert (Math_trunc y = Qfloor y) as ->.
  { destruct y as [n d]. unfold Math_trunc, Qfloor. cbn [Qnum Qden].
    apply Z.quot_div_nonneg; [|done]. unfold Qle in Hy. cbn [Qnum Qden] in Hy. lia. }
  split; [apply Qfloor_le|]. pose proof (Qlt_floor y) as H.
  by rewrite inject_Z_plus in H.
Qed.

Lemma Math_trunc_unique y n :
  (inject_Z n <= y)%Q -> (y < inject_Z n + 1)%Q -> (0 <= y)%Q -> Math_trunc y = n.
Proof.
  intros Hlo Hhi Hy. destruct (Math_trunc_floor y Hy) as [Hlo' Hhi'].
  assert (inject_Z n < inject_Z (Math_trunc y + 1))%Q as H1.
  { rewrite inject_Z_plus. by apply Qle_lt_trans with y. }
  assert (inject_Z (Math_trunc y) < inject_Z (n + 1))%Q as H2.
  { rewrite inject_Z_plus. by apply Qle_lt_trans with y. }
  rewrite <- Zlt_Qlt in H1, H2. lia.
Qed.

Lemma Math_trunc_random r :
  is_binary64 r = true -> (0 <= r)%Q -> (r < 1)%Q ->
  (0 <= Math_trunc (Number_multiply r 100000) <= 99999)%Z.
Proof.
  intros Hb H0 H1. destruct (Number_multiply_random r Hb H0 H1) as [Hlo Hhi].
  destruct (Math_trunc_floor _ Hlo) as [Hf1 Hf2].
  split.
  - cut (0 < Math_trunc (Number_multiply r 100000) + 1)%Z; [lia|].
    rewrite Zlt_Qlt, inject_Z_plus.
    by apply Qle_lt_trans with (Number_multiply r 100000).
  - cut (Math_trunc (Number_multiply r 100000) < 100000)%Z; [lia|].
    rewrite Zlt_Qlt. by apply Qle_lt_trans with (Number_multiply r 100000).
Qed.

Lemma Number_toString_inj a b :
  Number_toString (Int a) = Number_toString (Int b) -> a = b.
Proof.
  intros Heq.
  pose proof (parse_number_toString a [] I) as Hpa.
  pose proof (parse_number_toString b [] I) as Hpb.
  rewrite Heq in Hpa. congruence.
Qed.

Lemma useAddPost_mutationFn_calls p w r w1 :
  useAddPost_mutationFn (mkVariables p) w = (Fulfilled r, w1) ->
  exists text, calls w1 = calls w ++ [GetItem POSTS; SetItem POSTS text].
Proof.
  unfold useAddPost_mutationFn. run_async.
  destruct (JSON_parse _) as [e|response]; [done|]. run_async.
  destruct (Array_push response _) as [e|response']; [done|]. run_async.
  intros H. injection H as _ <-. cbn [calls]. rewrite <- app_assoc. eauto.
Qed.

Lemma usePost_queryFn_calls postId w :
  calls (snd (usePost_queryFn postId w)) = calls w ++ [GetItem POSTS].
Proof.
  unfold usePost_queryFn. run_async.
  destruct (not_string _); [done|].
  destruct (JSON_parse _) as [e|posts]; [done|]. run_async.
  by destruct (Array_find posts _).
Qed.

(** A mutation changes the cache under the key of List Posts only. *)
Lemma mutate_useAddPost_other_keys p w key :
  key <> queryKey usePosts ->
  queryCache (snd (mutate useAddPost (mkVariables p) w)) !! key = queryCache w !! key.
Proof.
  intros Hkey. rewrite mutate_unfold. cbn [mutationFn onSuccess useAddPost].
  pose proof (useAddPost_mutationFn_cache p w) as Hfn.
  destruct (useAddPost_mutationFn (mkVariables p) w) as [[r|e] w1]; cbn [snd] in *; [|by rewrite Hfn].
  pose proof (useAddPost_onSuccess_other_keys r w1 key Hkey) as Hok.
  destruct (useAddPost_onSuccess r w1) as [[x|e] w2]; cbn [snd] in *;
    by rewrite Hok, Hfn.
Qed.

(** ** The scenarios of the spec, run *)

Example scenario_list_posts_first_run :
  usePosts_queryFn (mkWorld ∅ [] ∅) =
    (Fulfilled (VArr []),
     mkWorld {[POSTS := u "[]"]} [GetItem POSTS; SetItem POSTS (u "[]")] ∅).
Proof. reflexivity. Qed.

Example scenario_get_post_found :
  fst (usePost_queryFn 1
         (mkWorld {[POSTS := JSON_stringify (Posts_value [mkPost 1 (u "a") (u "b")])]}
            [] ∅)) =
  Fulfilled (Some (Post_value (mkPost 1 (u "a") (u "b")))).
Proof. vm_compute. reflexivity. Qed.

Example scenario_add_second_post :
  let p1 := mkPost 1 (u "a") (u "b") in
  let p2 := mkPost 2 (u "hello 2") (u "yoo") in
  let w := useQuery_fetch usePosts
             (mkWorld {[POSTS := JSON_stringify (Posts_value [p1])]} [] ∅) in
  let w' := snd (mutate useAddPost (mkVariables p2) w) in
  localStorage w' !! POSTS = Some (JSON_stringify (Posts_value [p1; p2])) /\
  QueryClient_getQueryData [inl POSTS] w' = Some (Posts_value [p1; p2]) /\
  calls w' = [GetItem POSTS; GetItem POSTS;
              SetItem POSTS (JSON_stringify (Posts_value [p1; p2]))].
Proof. cbv zeta. repeat split; vm_compute; reflexivity. Qed.

(** An id of more than 21 digits is written in exponent form, and read
    back as the same integer. *)
Example scenario_large_id :
  Number_toString (Int (123 * 10 ^ 23)) = u "1.23e+25" /\
  JSON_parse (JSON_stringify (Posts_value [mkPost (123 * 10 ^ 23) (u "a") (u "b")])) =
    inr (Posts_value [mkPost (123 * 10 ^ 23) (u "a") (u "b")]).
Proof. split; vm_compute; reflexivity. Qed.

(** A text that is valid JSON but not a collection is handed on as it
    is: the cast to an array of posts checks nothing. *)
Example scenario_list_posts_object_text :
  fst (usePosts_queryFn (mkWorld {[POSTS := [Ch.LBRACE; Ch.RBRACE]]} [] ∅)) =
  Fulfilled (VObj []).
Proof. reflexivity. Qed.

(** The product of a draw with 100000 is rounded: for the binary64 value
    nearest to 0.00827 it is 827, where the exact product is a little
    less, and the title says 827. *)
Example scenario_rounded_product :
  round_binary64 (827 # 100000) = (4767330421549312 # 576460752303423488)%Q /\
  Math_trunc (Number_multiply (4767330421549312 # 576460752303423488) 100000) = 827%Z /\
  Math_trunc ((4767330421549312 # 576460752303423488) * 100000) = 826%Z.
Proof. split; [|split]; vm_compute; reflexivity. Qed.

(** With the sentinel the list view is shown, so [usePost] is not called
    with it. *)
Example App_sentinel : App (-1) = PostsView /\ App 0 = PostView 0.
Proof. split; reflexivity. Qed.

(** * The claims *)

(** C1. Starting from a store that is absent or holds the empty
    collection, after any sequence of N Add Post operations the stored
    collection is the N posts in the order in which they were added, so
    its length is N: each add reads the collection (empty when absent),
    appends its post at the end and writes the whole collection back,
    which the log of storage calls shows, one read and one write of the
    collection so far for every add. *)
Theorem addPosts_stored_length ps w :
  localStorage w !! POSTS = None \/ localStorage w !! POSTS = Some (u "[]") ->
  exists elems,
    stored_collection (addPosts ps w) = inr (VArr elems) /\
    elems = List.map Post_value ps /\
    length elems = length ps /\
    calls (addPosts ps w) = calls w ++ add_calls [] ps.
Proof.
  intros Hw.
  assert (stored_collection w = inr (Posts_value [])) as Hstart.
  { unfold stored_collection. by destruct Hw as [-> | ->]. }
  exists (List.map Post_value ps).
  split; [|split; [done|split; [by rewrite length_map|]]].
  - by apply (stored_collection_addPosts ps [] w).
  - by apply (calls_addPosts ps [] w).
Qed.

Lemma addPosts_stored_length_witness :
  exists elems,
    stored_collection
      (addPosts [mkPost 1 (u "a") (u "b"); mkPost 2 (u "hello 2") (u "yoo")]
         (mkWorld ∅ [] ∅)) = inr (VArr elems) /\
    elems = List.map Post_value
              [mkPost 1 (u "a") (u "b"); mkPost 2 (u "hello 2") (u "yoo")] /\
    length elems = 2%nat /\
    calls (addPosts [mkPost 1 (u "a") (u "b"); mkPost 2 (u "hello 2") (u "yoo")]
             (mkWorld ∅ [] ∅)) =
      [] ++ add_calls [] [mkPost 1 (u "a") (u "b"); mkPost 2 (u "hello 2") (u "yoo")].
Proof.
  apply (addPosts_stored_length
           [mkPost 1 (u "a") (u "b"); mkPost 2 (u "hello 2") (u "yoo")]
           (mkWorld ∅ [] ∅)).
  left. reflexivity.
Defined.

(** C2. After a successful Add Post the cached "posts" entry is the list
    that was cached before with the new post appended at the end, and
    the new post alone when nothing, or null, was cached.  The update
    makes no storage call, so the store is read once, by the mutation
    function, and the handler computes the same entry against any
    storage. *)
Theorem useAddPost_optimistic_update p w w1 elems :
  useAddPost_mutationFn (mkVariables p) w = (Fulfilled p, w1) ->
  (QueryClient_getQueryData [inl POSTS] w = Some (VArr elems) \/
   ((QueryClient_getQueryData [inl POSTS] w = None \/
     QueryClient_getQueryData [inl POSTS] w = Some VNull) /\ elems = [])) ->
  exists w2 text,
    mutate useAddPost (mkVariables p) w = (Fulfilled p, w2) /\
    QueryClient_getQueryData [inl POSTS] w2 = Some (VArr (elems ++ [Post_value p])) /\
    localStorage w2 !! POSTS = localStorage w1 !! POSTS /\
    calls w2 = calls w1 /\
    calls w2 = calls w ++ [GetItem POSTS; SetItem POSTS text] /\
    forall storage log,
      queryCache (snd (useAddPost_onSuccess p (mkWorld storage log (queryCache w)))) =
      queryCache w2.
Proof.
  intros Hfn Hcase.
  assert (nullish_value (QueryClient_getQueryData [inl POSTS] w) (VArr []) = VArr elems)
    as Hcached.
  { destruct Hcase as [-> | [[-> | ->] ->]]; reflexivity. }
  pose proof (useAddPost_mutationFn_cache p w) as Hcache.
  rewrite Hfn in Hcache. cbn [snd] in Hcache.
  destruct (useAddPost_mutationFn_calls p w p w1 Hfn) as (text & Hcalls).
  assert (nullish_value (QueryClient_getQueryData [inl POSTS] w1) (VArr []) = VArr elems)
    as Hcached1.
  { unfold QueryClient_getQueryData in *. by rewrite Hcache. }
  eexists _, text. rewrite mutate_unfold. cbn [mutationFn onSuccess useAddPost].
  rewrite Hfn, (useAddPost_onSuccess_list p w1 elems Hcached1).
  split; [reflexivity|]. cbn [localStorage calls queryCache].
  split; [|split; [done|split; [done|split; [done|]]]].
  - unfold QueryClient_getQueryData. cbn [queryCache]. by rewrite lookup_insert_eq.
  - intros storage log. rewrite (useAddPost_onSuccess_list p _ elems).
    + cbn [snd queryCache]. by rewrite Hcache.
    + exact Hcached.
Qed.

Lemma useAddPost_optimistic_update_witness :
  exists w2 text,
    mutate useAddPost (mkVariables (mkPost 2 (u "hello 2") (u "yoo")))
      (mkWorld {[POSTS := JSON_stringify (Posts_value [mkPost 1 (u "a") (u "b")])]} []
         {[[inl POSTS] := mkQuery success (Some (Posts_value [mkPost 1 (u "a") (u "b")])) None]}) =
      (Fulfilled (mkPost 2 (u "hello 2") (u "yoo")), w2) /\
    QueryClient_getQueryData [inl POSTS] w2 =
      Some (VArr ([Post_value (mkPost 1 (u "a") (u "b"))] ++
                  [Post_value (mkPost 2 (u "hello 2") (u "yoo"))])) /\
    localStorage w2 !! POSTS =
      Some (JSON_stringify
              (Posts_value [mkPost 1 (u "a") (u "b"); mkPost 2 (u "hello 2") (u "yoo")])) /\
    calls w2 =
      [GetItem POSTS;
       SetItem POSTS
         (JSON_stringify
            (Posts_value [mkPost 1 (u "a") (u "b"); mkPost 2 (u "hello 2") (u "yoo")]))] /\
    calls w2 = [] ++ [GetItem POSTS; SetItem POSTS text] /\
    forall storage log,
      queryCache
        (snd (useAddPost_onSuccess (mkPost 2 (u "hello 2") (u "yoo"))
                (mkWorld storage log
                   {[[inl POSTS] :=
                       mkQuery success (Some (Posts_value [mkPost 1 (u "a") (u "b")])) None]}))) =
      queryCache w2.
Proof.
  refine (useAddPost_optimistic_update (mkPost 2 (u "hello 2") (u "yoo"))
            (mkWorld {[POSTS := JSON_stringify (Posts_value [mkPost 1 (u "a") (u "b")])]} []
               {[[inl POSTS] :=
                   mkQuery success (Some (Posts_value [mkPost 1 (u "a") (u "b")])) None]})
            (mkWorld
               {[POSTS := JSON_stringify
                            (Posts_value [mkPost 1 (u "a") (u "b");
                                          mkPost 2 (u "hello 2") (u "yoo")])]}
               [GetItem POSTS;
                SetItem POSTS
                  (JSON_stringify
                     (Posts_value [mkPost 1 (u "a") (u "b");
                                   mkPost 2 (u "hello 2") (u "yoo")]))]
               {[[inl POSTS] :=
                   mkQuery success (Some (Posts_value [mkPost 1 (u "a") (u "b")])) None]})
            [Post_value (mkPost 1 (u "a") (u "b"))] _ _).
  - vm_compute. reflexivity.
  - left. reflexivity.
Defined.

(** C3. When List Posts runs and the store is absent, it writes the
    empty serialized collection, the two characters of an empty array,
    under "posts" and resolves with the empty list; afterwards the store
    holds that text, and the query is in the success state with the empty
    list as its data. *)
Theorem usePosts_initialises_store w :
  localStorage w !! POSTS = None ->
  usePosts_queryFn w =
    (Fulfilled (VArr []),
     mkWorld (<[POSTS := u "[]"]> (localStorage w))
       (calls w ++ [GetItem POSTS; SetItem POSTS (u "[]")]) (queryCache w)) /\
  localStorage (snd (usePosts_queryFn w)) !! POSTS = Some [Ch.LBRACKET; Ch.RBRACKET] /\
  JSON_stringify (VArr []) = [Ch.LBRACKET; Ch.RBRACKET] /\
  useQuery usePosts (useQuery_fetch usePosts w) = mkQuery success (Some (VArr [])) None.
Proof.
  intros Hw.
  assert (not_string (localStorage w !! POSTS) = true) as Hns by (by rewrite Hw).
  pose proof (usePosts_queryFn_absent w Hns) as Hrun.
  split; [exact Hrun|]. rewrite Hrun. cbn [snd localStorage].
  split; [apply lookup_insert_eq|]. split; [reflexivity|].
  unfold useQuery, useQuery_fetch, usePosts.
  cbn [enabled queryFn queryKey]. unfold bind, ret. rewrite Hrun.
  cbn [queryCache settle]. by rewrite lookup_insert_eq.
Qed.

Lemma usePosts_initialises_store_witness :
  usePosts_queryFn (mkWorld ∅ [] ∅) =
    (Fulfilled (VArr []),
     mkWorld (<[POSTS := u "[]"]> ∅) ([] ++ [GetItem POSTS; SetItem POSTS (u "[]")]) ∅) /\
  localStorage (snd (usePosts_queryFn (mkWorld ∅ [] ∅))) !! POSTS =
    Some [Ch.LBRACKET; Ch.RBRACKET] /\
  JSON_stringify (VArr []) = [Ch.LBRACKET; Ch.RBRACKET] /\
  useQuery usePosts (useQuery_fetch usePosts (mkWorld ∅ [] ∅)) =
    mkQuery success (Some (VArr [])) None.
Proof. apply (usePosts_initialises_store (mkWorld ∅ [] ∅)). reflexivity. Defined.

(** C4, as stated, fails: with the one post of id 1 in the store, Get
    Post By Id of 2 finds nothing, its function resolves with
    undefined, and the query does not end in the success state: the
    library takes an undefined result for a failure and the query is in
    the error state, with the library's error. *)
Lemma usePost_not_found_error_state :
  fst (usePost_queryFn 2
         (mkWorld {[POSTS := JSON_stringify (Posts_value [mkPost 1 (u "a") (u "b")])]}
            [] ∅)) = Fulfilled None /\
  status (useQuery (usePost 2)
            (useQuery_fetch (usePost 2)
               (mkWorld {[POSTS := JSON_stringify (Posts_value [mkPost 1 (u "a") (u "b")])]}
                  [] ∅))) = error /\
  status (useQuery (usePost 2)
            (useQuery_fetch (usePost 2)
               (mkWorld {[POSTS := JSON_stringify (Posts_value [mkPost 1 (u "a") (u "b")])]}
                  [] ∅))) <> success /\
  failure (useQuery (usePost 2)
             (useQuery_fetch (usePost 2)
                (mkWorld {[POSTS := JSON_stringify (Posts_value [mkPost 1 (u "a") (u "b")])]}
                   [] ∅))) =
    Some (mkError PlainError
            (Ch.LBRACKET :: Ch.DQUOTE :: u "post" ++ Ch.DQUOTE :: u ",2] data is undefined")).
Proof. split; [|split; [|split]]; by vm_compute. Qed.

(** C4, amended.  For every stored collection of posts and every id
    that no post of it has, the query function of Get Post By Id
    resolves, with an undefined result, and throws nothing.  The library
    takes the undefined result for a failure: an enabled query ends in
    the error state, with the error the library makes for it, which is
    none of the function's, and with the data it had before. *)
Theorem usePost_not_found ps postId text w :
  localStorage w !! POSTS = Some text ->
  JSON_parse text = inr (Posts_value ps) ->
  Forall (fun p => id p <> postId) ps ->
  usePost_queryFn postId w =
    (Fulfilled None,
     mkWorld (localStorage w) (calls w ++ [GetItem POSTS]) (queryCache w)) /\
  (enabled (usePost postId) = true ->
   useQuery (usePost postId) (useQuery_fetch (usePost postId) w) =
     mkQuery error (QueryClient_getQueryData (queryKey (usePost postId)) w)
       (Some (undefined_data_error (queryKey (usePost postId))))) /\
  undefined_data_error (queryKey (usePost postId)) <>
    mkError PlainError (u "No posts yet").
Proof.
  intros Hw Hparse Hids.
  assert (usePost_queryFn postId w =
          (Fulfilled None,
           mkWorld (localStorage w) (calls w ++ [GetItem POSTS]) (queryCache w))) as Hrun.
  { unfold usePost_queryFn. run_async.
    rewrite Hw, not_string_nonempty by (by eapply JSON_parse_inr_nonempty).
    cbn [nullish]. rewrite Hparse. run_async. unfold Posts_value, Array_find.
    by rewrite find_first_no_match. }
  split; [exact Hrun|]. split; [|done].
  intros Hen. unfold useQuery, useQuery_fetch. rewrite Hen.
  cbn [usePost queryFn queryKey]. rewrite Hrun.
  cbn [queryCache settle]. rewrite lookup_insert_eq.
  unfold QueryClient_getQueryData. by destruct (queryCache w !! _).
Qed.

Lemma usePost_not_found_witness :
  usePost_queryFn 2
    (mkWorld {[POSTS := JSON_stringify (Posts_value [mkPost 1 (u "a") (u "b")])]} [] ∅) =
    (Fulfilled None,
     mkWorld {[POSTS := JSON_stringify (Posts_value [mkPost 1 (u "a") (u "b")])]}
       ([] ++ [GetItem POSTS]) ∅) /\
  (enabled (usePost 2) = true ->
   useQuery (usePost 2)
     (useQuery_fetch (usePost 2)
        (mkWorld {[POSTS := JSON_stringify (Posts_value [mkPost 1 (u "a") (u "b")])]}
           [] ∅)) =
     mkQuery error
       (QueryClient_getQueryData (queryKey (usePost 2))
          (mkWorld {[POSTS := JSON_stringify (Posts_value [mkPost 1 (u "a") (u "b")])]}
             [] ∅))
       (Some (undefined_data_error (queryKey (usePost 2))))) /\
  undefined_data_error (queryKey (usePost 2)) <> mkError PlainError (u "No posts yet").
Proof.
  refine (usePost_not_found [mkPost 1 (u "a") (u "b")] 2
            (JSON_stringify (Posts_value [mkPost 1 (u "a") (u "b")]))
            (mkWorld {[POSTS := JSON_stringify (Posts_value [mkPost 1 (u "a") (u "b")])]}
               [] ∅) _ _ _).
  - reflexivity.
  - vm_compute. reflexivity.
  - repeat constructor. cbn. lia.
Defined.

(** C5, as stated, fails: the empty text is not a serialized collection
    ([JSON.parse] rejects it), yet with it in the store List Posts
    resolves, with the empty list, because the guard of the query
    function takes an empty string for an absent store. *)
Lemma usePosts_empty_text_resolves :
  localStorage (mkWorld {[POSTS := []]} [] ∅) !! POSTS = Some [] /\
  (forall v, JSON_parse [] <> inr v) /\
  fst (usePosts_queryFn (mkWorld {[POSTS := []]} [] ∅)) = Fulfilled (VArr []) /\
  status (useQuery usePosts (useQuery_fetch usePosts (mkWorld {[POSTS := []]} [] ∅))) =
    success.
Proof. split; [reflexivity|]. split; [done|]. split; reflexivity. Qed.

(** C5, amended.  If the text stored under "posts" is not empty and
    [JSON.parse] rejects it, List Posts fails: the SyntaxError of the
    parse is the error of the operation, with a message that is not
    empty, the query is in the error state, and the store is left as it
    was. *)
Theorem usePosts_parse_error text e w :
  localStorage w !! POSTS = Some text ->
  text <> [] ->
  JSON_parse text = inl e ->
  usePosts_queryFn w =
    (Rejected e, mkWorld (localStorage w) (calls w ++ [GetItem POSTS]) (queryCache w)) /\
  name e = SyntaxError /\
  message e <> [] /\
  status (useQuery usePosts (useQuery_fetch usePosts w)) = error /\
  failure (useQuery usePosts (useQuery_fetch usePosts w)) = Some e.
Proof.
  intros Hw Htext Hparse.
  pose proof (usePosts_queryFn_present w text Hw Htext) as Hrun.
  rewrite Hparse in Hrun.
  destruct (JSON_parse_error text e Hparse) as [Hname Hmsg].
  split; [exact Hrun|]. split; [exact Hname|]. split; [exact Hmsg|].
  unfold useQuery, useQuery_fetch, usePosts.
  cbn [enabled queryFn queryKey]. unfold bind, ret. rewrite Hrun.
  cbn [queryCache settle]. by rewrite lookup_insert_eq.
Qed.

Lemma usePosts_parse_error_witness :
  usePosts_queryFn (mkWorld {[POSTS := u "not json"]} [] ∅) =
    (Rejected (JSON_SyntaxError (u "not json")),
     mkWorld {[POSTS := u "not json"]} ([] ++ [GetItem POSTS]) ∅) /\
  name (JSON_SyntaxError (u "not json")) = SyntaxError /\
  message (JSON_SyntaxError (u "not json")) <> [] /\
  status (useQuery usePosts (useQuery_fetch usePosts (mkWorld {[POSTS := u "not json"]} [] ∅)))
    = error /\
  failure (useQuery usePosts (useQuery_fetch usePosts (mkWorld {[POSTS := u "not json"]} [] ∅)))
    = Some (JSON_SyntaxError (u "not json")).
Proof.
  refine (usePosts_parse_error (u "not json") (JSON_SyntaxError (u "not json"))
            (mkWorld {[POSTS := u "not json"]} [] ∅) _ _ _).
  - reflexivity.
  - discriminate.
  - reflexivity.
Defined.

(** C6. For every id, Get Post By Id on a store whose "posts" key is
    absent fails with the explicit Error "No posts yet": it does not
    resolve, it leaves the key absent, and an enabled query shows the
    error state with that error. *)
Theorem usePost_absent_store postId w :
  localStorage w !! POSTS = None ->
  usePost_queryFn postId w =
    (Rejected (mkError PlainError (u "No posts yet")),
     mkWorld (localStorage w) (calls w ++ [GetItem POSTS]) (queryCache w)) /\
  localStorage (snd (usePost_queryFn postId w)) !! POSTS = None /\
  (enabled (usePost postId) = true ->
   status (useQuery (usePost postId) (useQuery_fetch (usePost postId) w)) = error /\
   failure (useQuery (usePost postId) (useQuery_fetch (usePost postId) w)) =
     Some (mkError PlainError (u "No posts yet"))).
Proof.
  intros Hw.
  assert (usePost_queryFn postId w =
          (Rejected (mkError PlainError (u "No posts yet")),
           mkWorld (localStorage w) (calls w ++ [GetItem POSTS]) (queryCache w))) as Hrun.
  { unfold usePost_queryFn. run_async. by rewrite Hw. }
  split; [exact Hrun|]. split; [by rewrite Hrun|].
  intros Hen. unfold useQuery, useQuery_fetch. rewrite Hen.
  cbn [usePost queryFn queryKey]. rewrite Hrun.
  cbn [queryCache settle]. by rewrite lookup_insert_eq.
Qed.

Lemma usePost_absent_store_witness :
  usePost_queryFn 7 (mkWorld ∅ [] ∅) =
    (Rejected (mkError PlainError (u "No posts yet")),
     mkWorld ∅ ([] ++ [GetItem POSTS]) ∅) /\
  localStorage (snd (usePost_queryFn 7 (mkWorld ∅ [] ∅))) !! POSTS = None /\
  (enabled (usePost 7) = true ->
   status (useQuery (usePost 7) (useQuery_fetch (usePost 7) (mkWorld ∅ [] ∅))) = error /\
   failure (useQuery (usePost 7) (useQuery_fetch (usePost 7) (mkWorld ∅ [] ∅))) =
     Some (mkError PlainError (u "No posts yet"))).
Proof. apply (usePost_absent_store 7 (mkWorld ∅ [] ∅)). reflexivity. Defined.

(** C7. Get Post By Id is enabled by the truthiness of its id: it is
    disabled exactly when the id is zero, and then nothing is executed
    and no storage call is made; for any other id, the sentinel -1
    included, it is enabled and its function reads the store. *)
Theorem usePost_enabled postId w :
  enabled (usePost postId) = ToBoolean postId /\
  (enabled (usePost postId) = false <-> postId = 0%Z) /\
  (enabled (usePost postId) = true <-> postId <> 0%Z) /\
  calls (useQuery_fetch (usePost postId) w) =
    calls w ++ (if enabled (usePost postId) then [GetItem POSTS] else []) /\
  useQuery_fetch (usePost 0) w = w /\
  enabled (usePost 0) = false /\
  enabled (usePost (-1)) = true.
Proof.
  assert (enabled (usePost postId) = ToBoolean postId) as Hen.
  { cbn [usePost enabled]. apply negb_involutive. }
  split; [exact Hen|]. rewrite Hen. unfold ToBoolean.
  split; [|split; [|split; [|done]]].
  - rewrite negb_false_iff. apply Z.eqb_eq.
  - rewrite negb_true_iff. apply Z.eqb_neq.
  - unfold useQuery_fetch. rewrite Hen. unfold ToBoolean.
    destruct (negb (postId =? 0)%Z); [|by rewrite app_nil_r].
    cbn [usePost queryFn queryKey].
    pose proof (usePost_queryFn_calls postId w) as Hcalls.
    by destruct (usePost_queryFn postId w) as [o w'].
Qed.

Lemma usePost_enabled_witness :
  enabled (usePost 5) = true /\
  calls (useQuery_fetch (usePost 5) (mkWorld ∅ [] ∅)) = [GetItem POSTS] /\
  useQuery_fetch (usePost 0) (mkWorld ∅ [] ∅) = mkWorld ∅ [] ∅.
Proof.
  pose proof (usePost_enabled 5 (mkWorld ∅ [] ∅)) as (_ & _ & Hen & Hcalls & Hoff & _).
  split; [apply Hen; discriminate|]. split; [|exact Hoff].
  rewrite Hcalls. reflexivity.
Defined.

(** C8. No Add Post changes a "post by id" cache entry: for every id,
    what is cached under the key of Get Post By Id is the same before and
    after the mutation, however the mutation ends. *)
Theorem useAddPost_keeps_post_entries p postId w :
  queryCache (snd (mutate useAddPost (mkVariables p) w)) !! queryKey (usePost postId) =
    queryCache w !! queryKey (usePost postId) /\
  QueryClient_getQueryData (queryKey (usePost postId)) (snd (mutate useAddPost (mkVariables p) w)) =
    QueryClient_getQueryData (queryKey (usePost postId)) w /\
  forall key, key <> queryKey usePosts ->
    queryCache (snd (mutate useAddPost (mkVariables p) w)) !! key = queryCache w !! key.
Proof.
  assert (forall key, key <> queryKey usePosts ->
            queryCache (snd (mutate useAddPost (mkVariables p) w)) !! key = queryCache w !! key)
    as Hframe by apply mutate_useAddPost_other_keys.
  assert (queryCache (snd (mutate useAddPost (mkVariables p) w)) !! queryKey (usePost postId) =
          queryCache w !! queryKey (usePost postId)) as Hsame by (by apply Hframe).
  split; [exact Hsame|]. split; [|exact Hframe].
  unfold QueryClient_getQueryData. by rewrite Hsame.
Qed.

Lemma useAddPost_keeps_post_entries_witness :
  QueryClient_getQueryData [inl (u "post"); inr 1%Z]
    (snd (mutate useAddPost (mkVariables (mkPost 2 (u "hello 2") (u "yoo")))
            (useQuery_fetch (usePost 1)
               (mkWorld {[POSTS := JSON_stringify (Posts_value [mkPost 1 (u "a") (u "b")])]}
                  [] ∅)))) =
  Some (Post_value (mkPost 1 (u "a") (u "b"))).
Proof.
  refine (eq_trans
            (proj1 (proj2 (useAddPost_keeps_post_entries
                             (mkPost 2 (u "hello 2") (u "yoo")) 1 _))) _).
  vm_compute. reflexivity.
Defined.

(** C9. For every collection of Posts, [JSON.parse] of its
    [JSON.stringify] is the collection itself, and no other one; so what
    List Posts reads after the collection was written is the collection. *)
Theorem JSON_roundtrip_Posts ps w :
  JSON_parse (JSON_stringify (Posts_value ps)) = inr (Posts_value ps) /\
  (forall qs, JSON_parse (JSON_stringify (Posts_value ps)) = inr (Posts_value qs) ->
              qs = ps) /\
  fst (usePosts_queryFn
         (snd (localStorage_setItem POSTS (JSON_stringify (Posts_value ps)) w))) =
    Fulfilled (Posts_value ps).
Proof.
  pose proof (JSON_parse_stringify_Posts ps) as Hrt.
  split; [exact Hrt|]. split.
  - intros qs Hqs. rewrite Hrt in Hqs. symmetry. apply Posts_value_inj. congruence.
  - erewrite usePosts_queryFn_present.
    + by rewrite Hrt.
    + cbn [localStorage_setItem snd localStorage]. apply lookup_insert_eq.
    + apply JSON_stringify_Posts_nonempty.
Qed.

Lemma JSON_roundtrip_Posts_witness :
  JSON_parse (JSON_stringify (Posts_value [mkPost 1 (u "a") (u "b")])) =
    inr (Posts_value [mkPost 1 (u "a") (u "b")]) /\
  (forall qs,
     JSON_parse (JSON_stringify (Posts_value [mkPost 1 (u "a") (u "b")])) =
       inr (Posts_value qs) ->
     qs = [mkPost 1 (u "a") (u "b")]) /\
  fst (usePosts_queryFn
         (snd (localStorage_setItem POSTS
                 (JSON_stringify (Posts_value [mkPost 1 (u "a") (u "b")]))
                 (mkWorld ∅ [] ∅)))) =
    Fulfilled (Posts_value [mkPost 1 (u "a") (u "b")]).
Proof.
  exact (JSON_roundtrip_Posts [mkPost 1 (u "a") (u "b")] (mkWorld ∅ [] ∅)).
Defined.

(** C10. A press of the add button draws two random numbers; each of
    them, a binary64 value from 0 up to but not 1, is multiplied by
    100000, the product is rounded to binary64, and its integer part,
    the integer [n] with [n <= product < n + 1], lies between 0 and
    99999.  The one of the first draw is written in the title, after
    "hello "; the one of the second draw is the id of the new post.
    Whenever the two differ, the title is not the one made from the
    post's own id. *)
Theorem Posts_onClick_two_draws random1 random2 :
  is_binary64 random1 = true -> (0 <= random1)%Q -> (random1 < 1)%Q ->
  is_binary64 random2 = true -> (0 <= random2)%Q -> (random2 < 1)%Q ->
  exists n1 n2,
    (inject_Z n1 <= Number_multiply random1 100000)%Q /\
    (Number_multiply random1 100000 < inject_Z n1 + 1)%Q /\
    (inject_Z n2 <= Number_multiply random2 100000)%Q /\
    (Number_multiply random2 100000 < inject_Z n2 + 1)%Q /\
    (0 <= n1 <= 99999)%Z /\
    (0 <= n2 <= 99999)%Z /\
    Posts_onClick random1 random2 =
      mutate useAddPost
        (mkVariables (mkPost n2 (u "hello " ++ Number_toString (Int n1)) (u "yoo"))) /\
    (n1 <> n2 ->
     u "hello " ++ Number_toString (Int n1) <> u "hello " ++ Number_toString (Int n2)).
Proof.
  intros Hb1 H1 H1' Hb2 H2 H2'.
  destruct (Number_multiply_random random1 Hb1 H1 H1') as [Hp1 _].
  destruct (Number_multiply_random random2 Hb2 H2 H2') as [Hp2 _].
  destruct (Math_trunc_floor _ Hp1) as [Hlo1 Hhi1].
  destruct (Math_trunc_floor _ Hp2) as [Hlo2 Hhi2].
  exists (Math_trunc (Number_multiply random1 100000)),
         (Math_trunc (Number_multiply random2 100000)).
  split; [exact Hlo1|]. split; [exact Hhi1|]. split; [exact Hlo2|]. split; [exact Hhi2|].
  split; [by apply Math_trunc_random|]. split; [by apply Math_trunc_random|].
  split; [reflexivity|].
  intros Hne Heq. apply Hne. apply app_inv_head in Heq.
  by apply Number_toString_inj.
Qed.

Lemma Posts_onClick_two_draws_witness :
  Posts_onClick (4767330421549312 # 576460752303423488) (3 # 4) =
    mutate useAddPost (mkVariables (mkPost 75000 (u "hello 827") (u "yoo"))) /\
  u "hello 827" <> u "hello 75000".
Proof.
  destruct (Posts_onClick_two_draws (4767330421549312 # 576460752303423488) (3 # 4))
    as (n1 & n2 & Hlo1 & Hhi1 & Hlo2 & Hhi2 & _ & _ & Heq & Hne).
  1-6: by vm_compute.
  remember (Number_multiply (4767330421549312 # 576460752303423488) 100000) as x1 eqn:E1.
  remember (Number_multiply (3 # 4) 100000) as x2 eqn:E2.
  vm_compute in E1, E2. subst x1 x2.
  unfold Qle, Qlt in Hlo1, Hhi1, Hlo2, Hhi2.
  cbn [Qnum Qden inject_Z Qplus] in Hlo1, Hhi1, Hlo2, Hhi2.
  assert (n1 = 827%Z) as -> by lia.
  assert (n2 = 75000%Z) as -> by lia.
  split; [exact Heq|]. apply Hne. lia.
Defined.

(** * Further properties of the hooks and the views *)

(** ** Get Post By Id over a collection of Posts *)

Lemma find_first_Posts ps postId :
  find_first (List.map Post_value ps)
    (fun post =>
       match get_id post with
       | inr x => inr (strict_equal x postId)
       | inl e => inl e
       end) = inr (option_map Post_value (first_with_id postId ps)).
Proof.
  unfold first_with_id. induction ps as [|p ps IH]; [done|].
  cbn [List.map find_first List.find]. rewrite get_id_Post.
  cbn [strict_equal number_eqb]. by destruct (id p =? postId)%Z.
Qed.

Lemma usePost_queryFn_Posts ps postId text w :
  localStorage w !! POSTS = Some text ->
  JSON_parse text = inr (Posts_value ps) ->
  usePost_queryFn postId w =
    (Fulfilled (option_map Post_value (first_with_id postId ps)),
     mkWorld (localStorage w) (calls w ++ [GetItem POSTS]) (queryCache w)).
Proof.
  intros Hw Hparse. unfold usePost_queryFn. run_async.
  rewrite Hw, not_string_nonempty by (by eapply JSON_parse_inr_nonempty).
  cbn [nullish]. rewrite Hparse. run_async. unfold Posts_value, Array_find.
  by rewrite find_first_Posts.
Qed.

Lemma first_with_id_first ps1 p ps2 :
  Forall (fun q => id q <> id p) ps1 ->
  first_with_id (id p) (ps1 ++ p :: ps2) = Some p.
Proof.
  unfold first_with_id. induction 1 as [|q ps1 Hq _ IH]; cbn [app List.find].
  - by rewrite Z.eqb_refl.
  - by destruct (Z.eqb_spec (id q) (id p)).
Qed.

Lemma first_with_id_app postId qs ps :
  first_with_id postId (qs ++ ps) =
    match first_with_id postId qs with
    | Some q => Some q
    | None => first_with_id postId ps
    end.
Proof.
  unfold first_with_id. induction qs as [|q qs IH]; [done|].
  cbn [app List.find]. by destruct (id q =? postId)%Z.
Qed.

Lemma first_with_id_Some postId ps p :
  first_with_id postId ps = Some p -> id p = postId /\ In p ps.
Proof.
  unfold first_with_id. intros H. apply List.find_some in H as [Hin Hid].
  split; [by apply Z.eqb_eq|done].
Qed.

(** What a subscriber sees once an enabled query has run. *)
Lemma useQuery_after_fetch opts w :
  enabled opts = true ->
  useQuery opts (useQuery_fetch opts w) =
    settle (queryKey opts) (queryCache (snd (queryFn opts w)) !! queryKey opts)
      (fst (queryFn opts w)).
Proof.
  intros Hen. unfold useQuery, useQuery_fetch. rewrite Hen.
  destruct (queryFn opts w) as [o w1]. cbn [queryCache fst snd].
  by rewrite lookup_insert_eq.
Qed.

Lemma usePost_nonzero_enabled postId : postId <> 0%Z -> enabled (usePost postId) = true.
Proof.
  intros H. cbn [usePost enabled]. rewrite negb_involutive. unfold ToBoolean.
  by destruct (Z.eqb_spec postId 0).
Qed.

Lemma get_id_error post e : get_id post = inl e -> name e = TypeError.
Proof. destruct post; cbn [get_id]; intros H; by simplify_eq. Qed.

Lemma Array_find_error posts postId e :
  Array_find posts
    (fun post =>
       match get_id post with
       | inr x => inr (strict_equal x postId)
       | inl e => inl e
       end) = inl e ->
  name e = TypeError.
Proof.
  destruct posts as [| | | |elems|]; cbn [Array_find]; try (intros H; by simplify_eq).
  induction elems as [|x elems IH]; cbn [find_first]; [done|].
  destruct (get_id x) as [e'|i] eqn:Hx.
  - intros H. simplify_eq. by eapply get_id_error.
  - by destruct (strict_equal i postId).
Qed.

Lemma usePost_queryFn_storage postId w :
  localStorage (snd (usePost_queryFn postId w)) = localStorage w /\
  queryCache (snd (usePost_queryFn postId w)) = queryCache w.
Proof.
  unfold usePost_queryFn. run_async.
  destruct (not_string _); [done|].
  destruct (JSON_parse _) as [e|posts]; [done|]. run_async.
  by destruct (Array_find posts _).
Qed.

(** X1. Get Post By Id returns the first post of the stored collection
    that has the id, whatever follows it, other posts with the same id
    included; for an id other than 0 the query is then in the success
    state with that post as its data. *)
Theorem usePost_first_match ps1 p ps2 text w :
  localStorage w !! POSTS = Some text ->
  JSON_parse text = inr (Posts_value (ps1 ++ p :: ps2)) ->
  Forall (fun q => id q <> id p) ps1 ->
  usePost_queryFn (id p) w =
    (Fulfilled (Some (Post_value p)),
     mkWorld (localStorage w) (calls w ++ [GetItem POSTS]) (queryCache w)) /\
  (id p <> 0%Z ->
   useQuery (usePost (id p)) (useQuery_fetch (usePost (id p)) w) =
     mkQuery success (Some (Post_value p)) None).
Proof.
  intros Hw Hparse Hfirst.
  pose proof (usePost_queryFn_Posts _ (id p) text w Hw Hparse) as Hrun.
  rewrite first_with_id_first in Hrun by done. cbn [option_map] in Hrun.
  split; [exact Hrun|]. intros Hid.
  rewrite useQuery_after_fetch by (by apply usePost_nonzero_enabled).
  cbn [usePost queryFn queryKey]. by rewrite Hrun.
Qed.

Lemma usePost_first_match_witness :
  let p1 := mkPost 1 (u "a") (u "b") in
  let p2 := mkPost 2 (u "first") (u "c") in
  let p3 := mkPost 2 (u "second") (u "d") in
  let w := mkWorld {[POSTS := JSON_stringify (Posts_value [p1; p2; p3])]} [] ∅ in
  usePost_queryFn 2 w =
    (Fulfilled (Some (Post_value p2)),
     mkWorld (localStorage w) (calls w ++ [GetItem POSTS]) (queryCache w)) /\
  (2%Z <> 0%Z ->
   useQuery (usePost 2) (useQuery_fetch (usePost 2) w) =
     mkQuery success (Some (Post_value p2)) None).
Proof.
  cbv zeta.
  refine (usePost_first_match [mkPost 1 (u "a") (u "b")] (mkPost 2 (u "first") (u "c"))
            [mkPost 2 (u "second") (u "d")]
            (JSON_stringify
               (Posts_value [mkPost 1 (u "a") (u "b"); mkPost 2 (u "first") (u "c");
                             mkPost 2 (u "second") (u "d")]))
            (mkWorld _ [] ∅) _ _ _).
  - reflexivity.
  - vm_compute. reflexivity.
  - repeat constructor. cbn. lia.
Defined.

(** X2. The errors of Get Post By Id tell their cause.  When the key is
    absent or holds the empty string the function throws the Error "No
    posts yet"; and whenever it throws, the error is that Error exactly
    in this case, a SyntaxError exactly when the stored text is not
    empty and [JSON.parse] rejects it, and a TypeError exactly when the
    text was parsed and the search in what it holds threw. *)
Theorem usePost_error_cause postId w :
  (not_string (localStorage w !! POSTS) = true ->
   fst (usePost_queryFn postId w) = Rejected (mkError PlainError (u "No posts yet"))) /\
  (forall e, fst (usePost_queryFn postId w) = Rejected e ->
     (name e = PlainError <-> not_string (localStorage w !! POSTS) = true) /\
     (name e = PlainError -> e = mkError PlainError (u "No posts yet")) /\
     (name e = SyntaxError <->
        exists text, localStorage w !! POSTS = Some text /\ text <> [] /\
                     JSON_parse text = inl e) /\
     (name e = TypeError <->
        exists text v, localStorage w !! POSTS = Some text /\ text <> [] /\
                       JSON_parse text = inr v)).
Proof.
  unfold usePost_queryFn. run_async.
  destruct (localStorage w !! POSTS) as [[|c text]|] eqn:Hw; cbn [not_string nullish].
  1,3: (split; [done|]; intros e He; cbn [fst] in He; injection He as <-; cbn [name];
        split; [done|]; split; [done|]; split; (split; [done|]);
        [intros (t & Ht & Hne & _)|intros (t & v & Ht & Hne & _)]; by simplify_eq).
  split; [done|]. intros e He.
  destruct (JSON_parse (c :: text)) as [e'|posts] eqn:Hparse; run_async.
  - cbn [fst] in He. injection He as <-.
    destruct (JSON_parse_error _ _ Hparse) as [Hname _]. rewrite Hname.
    split; [done|]. split; [done|]. split; split; [|done|done|].
    + intros _. by exists (c :: text).
    + intros (t & v & Ht & _ & Hv). injection Ht as <-. congruence.
  - destruct (Array_find posts _) as [e'|found] eqn:Hfind; cbn [fst] in He; [|done].
    injection He as <-. apply Array_find_error in Hfind. rewrite Hfind.
    split; [done|]. split; [done|]. split; split; [done| | |done].
    + intros (t & Ht & _ & Hv). injection Ht as <-. congruence.
    + intros _. by exists (c :: text), posts.
Qed.

Lemma usePost_error_cause_witness :
  fst (usePost_queryFn 7 (mkWorld {[POSTS := []]} [] ∅)) =
    Rejected (mkError PlainError (u "No posts yet")) /\
  (name (JSON_SyntaxError (u "not json")) = PlainError <->
   not_string (localStorage (mkWorld {[POSTS := u "not json"]} [] ∅) !! POSTS) = true).
Proof.
  split.
  - apply (proj1 (usePost_error_cause 7 (mkWorld {[POSTS := []]} [] ∅))). reflexivity.
  - refine (proj1 (proj2 (usePost_error_cause 7 (mkWorld {[POSTS := u "not json"]} [] ∅))
                     (JSON_SyntaxError (u "not json")) _)).
    vm_compute. reflexivity.
Defined.

(** X3. The function of Get Post By Id only reads: however it ends, the
    storage and the cache are as they were when it started and it has
    made one [getItem] of the key and no other storage call; run as a
    query it changes the cache under its own key only. *)
Theorem usePost_read_only postId w :
  localStorage (snd (usePost_queryFn postId w)) = localStorage w /\
  queryCache (snd (usePost_queryFn postId w)) = queryCache w /\
  calls (snd (usePost_queryFn postId w)) = calls w ++ [GetItem POSTS] /\
  (forall key, key <> queryKey (usePost postId) ->
     queryCache (useQuery_fetch (usePost postId) w) !! key = queryCache w !! key).
Proof.
  destruct (usePost_queryFn_storage postId w) as [Hs Hc].
  split; [exact Hs|]. split; [exact Hc|]. split; [apply usePost_queryFn_calls|].
  unfold useQuery_fetch. destruct (enabled (usePost postId)); [|done].
  cbn [usePost queryFn queryKey] in *.
  destruct (usePost_queryFn postId w) as [o w1]. cbn [snd localStorage queryCache] in *.
  intros key Hkey. by rewrite lookup_insert_ne, Hc.
Qed.

(** ** List Posts and Add Post *)

(** X4. List Posts is idempotent: a second run returns what the first
    one returned (or fails as it failed), writes nothing and leaves the
    storage as the first run left it. *)
Theorem usePosts_idempotent w :
  fst (usePosts_queryFn (snd (usePosts_queryFn w))) = fst (usePosts_queryFn w) /\
  localStorage (snd (usePosts_queryFn (snd (usePosts_queryFn w)))) =
    localStorage (snd (usePosts_queryFn w)) /\
  calls (snd (usePosts_queryFn (snd (usePosts_queryFn w)))) =
    calls (snd (usePosts_queryFn w)) ++ [GetItem POSTS].
Proof.
  destruct (not_string (localStorage w !! POSTS)) eqn:Hns.
  - rewrite (usePosts_queryFn_absent w Hns). cbn [fst snd].
    rewrite (usePosts_queryFn_present _ (u "[]")); [done| |done].
    cbn [localStorage]. apply lookup_insert_eq.
  - destruct (localStorage w !! POSTS) as [[|c text]|] eqn:Hw; try done.
    rewrite (usePosts_queryFn_present w (c :: text) Hw) by done. cbn [fst snd].
    by rewrite (usePosts_queryFn_present (mkWorld (localStorage w) _ _) (c :: text) Hw).
Qed.

Lemma Array_push_error response x e :
  Array_push response x = inl e -> name e = TypeError.
Proof. destruct response; cbn [Array_push]; intros H; by simplify_eq. Qed.

(** X5. A failed Add Post changes nothing: when the mutation function
    throws, which it does with the SyntaxError of [JSON.parse] or with a
    TypeError for a stored value that is no array, the mutation fails
    with that error, the success handler is not run, and the storage and
    the cache are as before; the one storage call made is the read. *)
Theorem useAddPost_failure_changes_nothing p w e w1 :
  useAddPost_mutationFn (mkVariables p) w = (Rejected e, w1) ->
  mutate useAddPost (mkVariables p) w = (Rejected e, w1) /\
  localStorage w1 = localStorage w /\
  queryCache w1 = queryCache w /\
  calls w1 = calls w ++ [GetItem POSTS] /\
  ((name e = SyntaxError /\ stored_collection w = inl e) \/
   (name e = TypeError /\ exists v, stored_collection w = inr v)).
Proof.
  intros Hfn. split.
  { rewrite mutate_unfold. cbn [mutationFn useAddPost]. by rewrite Hfn. }
  revert Hfn. unfold useAddPost_mutationFn, stored_collection. run_async.
  destruct (JSON_parse _) as [e'|response] eqn:Hparse; run_async.
  - intros H. injection H as <- <-. cbn [localStorage queryCache calls].
    repeat split; try done. left. split; [|done]. by eapply JSON_parse_error.
  - destruct (Array_push response _) as [e'|response'] eqn:Hpush; run_async; [|done].
    intros H. injection H as <- <-. cbn [localStorage queryCache calls].
    repeat split; try done. right. split; [by eapply Array_push_error|by exists response].
Qed.

Lemma useAddPost_failure_changes_nothing_witness :
  let p := mkPost 2 (u "hello 2") (u "yoo") in
  let w := mkWorld {[POSTS := u "not json"]} [] ∅ in
  let e := JSON_SyntaxError (u "not json") in
  let w1 := mkWorld {[POSTS := u "not json"]} [GetItem POSTS] ∅ in
  mutate useAddPost (mkVariables p) w = (Rejected e, w1) /\
  localStorage w1 = localStorage w /\
  queryCache w1 = queryCache w /\
  calls w1 = calls w ++ [GetItem POSTS] /\
  ((name e = SyntaxError /\ stored_collection w = inl e) \/
   (name e = TypeError /\ exists v, stored_collection w = inr v)).
Proof.
  cbv zeta.
  refine (useAddPost_failure_changes_nothing (mkPost 2 (u "hello 2") (u "yoo"))
            (mkWorld {[POSTS := u "not json"]} [] ∅)
            (JSON_SyntaxError (u "not json"))
            (mkWorld {[POSTS := u "not json"]} [GetItem POSTS] ∅) _).
  reflexivity.
Defined.

(** X6. Add Post succeeds exactly when what the store holds, or the text
    of an empty array when the key is absent, parses to an array.  The
    elements of the array need not be posts: when their numbers are
    integers that binary64 holds, they are kept, in their order, and the
    post is written after them.  A key that holds the empty string makes
    Add Post fail, where List Posts would start a new collection. *)
Theorem useAddPost_succeeds_iff_array p w :
  ((exists w1, useAddPost_mutationFn (mkVariables p) w = (Fulfilled p, w1)) <->
   (exists elems, stored_collection w = inr (VArr elems))) /\
  (forall elems,
     stored_collection w = inr (VArr elems) ->
     safe_value (VArr elems) = true ->
     localStorage (snd (useAddPost_mutationFn (mkVariables p) w)) !! POSTS =
       Some (JSON_stringify (VArr (elems ++ [Post_value p])))) /\
  (localStorage w !! POSTS = Some [] ->
     (exists e, fst (useAddPost_mutationFn (mkVariables p) w) = Rejected e /\
                name e = SyntaxError) /\
     fst (usePosts_queryFn w) = Fulfilled (VArr [])).
Proof.
  split; [split|split].
  - intros (w1 & Hfn). revert Hfn.
    unfold useAddPost_mutationFn, stored_collection. run_async.
    destruct (JSON_parse _) as [e'|response]; run_async; [done|].
    destruct response; cbn [Array_push]; run_async; try done. eauto.
  - intros (elems & Hw). unfold stored_collection in Hw.
    rewrite (useAddPost_mutationFn_array p w elems Hw). eauto.
  - intros elems Hw _. unfold stored_collection in Hw.
    rewrite (useAddPost_mutationFn_array p w elems Hw). cbn [snd localStorage].
    apply lookup_insert_eq.
  - intros Hw. split.
    + exists (JSON_SyntaxError []). split; [|done].
      unfold useAddPost_mutationFn. run_async. by rewrite Hw.
    + rewrite usePosts_queryFn_absent; [done|]. by rewrite Hw.
Qed.

Lemma useAddPost_succeeds_iff_array_witness :
  (exists w1,
     useAddPost_mutationFn (mkVariables (mkPost 2 (u "hello 2") (u "yoo")))
       (mkWorld {[POSTS := JSON_stringify (VArr [VNum (Int 1); VStr (u "x"); VNull])]}
          [] ∅) = (Fulfilled (mkPost 2 (u "hello 2") (u "yoo")), w1)) /\
  localStorage
    (snd (useAddPost_mutationFn (mkVariables (mkPost 2 (u "hello 2") (u "yoo")))
            (mkWorld {[POSTS := JSON_stringify (VArr [VNum (Int 1); VStr (u "x"); VNull])]}
               [] ∅))) !! POSTS =
    Some (JSON_stringify
            (VArr ([VNum (Int 1); VStr (u "x"); VNull] ++
                   [Post_value (mkPost 2 (u "hello 2") (u "yoo"))]))) /\
  ((exists e,
      fst (useAddPost_mutationFn (mkVariables (mkPost 2 (u "hello 2") (u "yoo")))
             (mkWorld {[POSTS := []]} [] ∅)) = Rejected e /\
      name e = SyntaxError) /\
   fst (usePosts_queryFn (mkWorld {[POSTS := []]} [] ∅)) = Fulfilled (VArr [])).
Proof.
  split; [|split].
  - apply (proj1 (useAddPost_succeeds_iff_array (mkPost 2 (u "hello 2") (u "yoo"))
                    (mkWorld {[POSTS := JSON_stringify (VArr [VNum (Int 1); VStr (u "x"); VNull])]}
                       [] ∅))).
    exists [VNum (Int 1); VStr (u "x"); VNull]. vm_compute. reflexivity.
  - refine (proj1 (proj2 (useAddPost_succeeds_iff_array (mkPost 2 (u "hello 2") (u "yoo"))
                            (mkWorld {[POSTS := JSON_stringify
                                                  (VArr [VNum (Int 1); VStr (u "x"); VNull])]}
                               [] ∅)))
              [VNum (Int 1); VStr (u "x"); VNull] _ _).
    + vm_compute. reflexivity.
    + reflexivity.
  - apply (proj2 (proj2 (useAddPost_succeeds_iff_array (mkPost 2 (u "hello 2") (u "yoo"))
                           (mkWorld {[POSTS := []]} [] ∅)))).
    reflexivity.
Defined.

(** ** The cache and the store *)

Lemma usePosts_fetch_collection qs w :
  stored_collection w = inr (Posts_value qs) ->
  QueryClient_getQueryData [inl POSTS] (useQuery_fetch usePosts w) = Some (Posts_value qs) /\
  stored_collection (useQuery_fetch usePosts w) = inr (Posts_value qs).
Proof.
  unfold stored_collection, useQuery_fetch, QueryClient_getQueryData.
  cbn [usePosts enabled queryFn queryKey]. unfold bind, ret.
  destruct (localStorage w !! POSTS) as [text|] eqn:Hw; cbn [nullish]; intros Hparse.
  - rewrite (usePosts_queryFn_present w text Hw) by (by eapply JSON_parse_inr_nonempty).
    rewrite Hparse. cbn [localStorage queryCache settle].
    by rewrite lookup_insert_eq, Hw.
  - rewrite usePosts_queryFn_absent by (by rewrite Hw).
    cbn [localStorage queryCache settle]. rewrite !lookup_insert_eq. cbn [data nullish].
    split; [|done]. rewrite JSON_parse_empty_array in Hparse. congruence.
Qed.

Lemma mutate_useAddPost_agree p qs w :
  QueryClient_getQueryData [inl POSTS] w = Some (Posts_value qs) ->
  stored_collection w = inr (Posts_value qs) ->
  QueryClient_getQueryData [inl POSTS] (snd (mutate useAddPost (mkVariables p) w)) =
    Some (Posts_value (qs ++ [p])).
Proof.
  intros Hcache Hstore. rewrite mutate_unfold. cbn [mutationFn onSuccess useAddPost].
  rewrite (useAddPost_mutationFn_array p w _ Hstore).
  erewrite useAddPost_onSuccess_list.
  2:{ unfold QueryClient_getQueryData in *. cbn [queryCache]. by rewrite Hcache. }
  cbn [snd]. unfold QueryClient_getQueryData. cbn [queryCache].
  rewrite lookup_insert_eq. cbn [data]. unfold Posts_value. by rewrite List.map_app.
Qed.

Lemma addPosts_agree ps : forall qs w,
  QueryClient_getQueryData [inl POSTS] w = Some (Posts_value qs) ->
  stored_collection w = inr (Posts_value qs) ->
  QueryClient_getQueryData [inl POSTS] (addPosts ps w) = Some (Posts_value (qs ++ ps)).
Proof.
  induction ps as [|p ps IH]; intros qs w Hcache Hstore; cbn [addPosts].
  - by rewrite app_nil_r.
  - replace (qs ++ p :: ps) with ((qs ++ [p]) ++ ps) by (by rewrite <- app_assoc).
    apply IH; [by apply mutate_useAddPost_agree|by apply stored_collection_after_add].
Qed.

(** X7. Once List Posts has run, the cache and the store stay in step:
    after the fetch and any sequence of Add Post operations, the list
    cached under "posts" and the collection in the store are the same,
    the collection found at the start followed by the added posts in the
    order of their addition. *)
Theorem cache_follows_store qs ps w :
  stored_collection w = inr (Posts_value qs) ->
  QueryClient_getQueryData [inl POSTS] (addPosts ps (useQuery_fetch usePosts w)) =
    Some (Posts_value (qs ++ ps)) /\
  stored_collection (addPosts ps (useQuery_fetch usePosts w)) =
    inr (Posts_value (qs ++ ps)).
Proof.
  intros Hw. destruct (usePosts_fetch_collection qs w Hw) as [Hcache Hstore].
  split; [by apply addPosts_agree|by apply stored_collection_addPosts].
Qed.

Lemma cache_follows_store_witness :
  let p1 := mkPost 1 (u "a") (u "b") in
  let p2 := mkPost 2 (u "hello 2") (u "yoo") in
  let p3 := mkPost 3 (u "hello 4") (u "yoo") in
  let w := mkWorld {[POSTS := JSON_stringify (Posts_value [p1])]} [] ∅ in
  QueryClient_getQueryData [inl POSTS] (addPosts [p2; p3] (useQuery_fetch usePosts w)) =
    Some (Posts_value ([p1] ++ [p2; p3])) /\
  stored_collection (addPosts [p2; p3] (useQuery_fetch usePosts w)) =
    inr (Posts_value ([p1] ++ [p2; p3])).
Proof.
  cbv zeta.
  refine (cache_follows_store [mkPost 1 (u "a") (u "b")]
            [mkPost 2 (u "hello 2") (u "yoo"); mkPost 3 (u "hello 4") (u "yoo")]
            (mkWorld _ [] ∅) _).
  vm_compute. reflexivity.
Defined.

(** X8. Without a cached list the optimistic update starts from the
    empty list: when nothing is cached under "posts" and the store holds
    a collection, after Add Post the cached list is the new post alone,
    while the store holds the whole collection with the post at its end;
    the two differ whenever the collection was not empty. *)
Theorem useAddPost_without_cached_list p qs w :
  QueryClient_getQueryData [inl POSTS] w = None ->
  stored_collection w = inr (Posts_value qs) ->
  QueryClient_getQueryData [inl POSTS] (snd (mutate useAddPost (mkVariables p) w)) =
    Some (Posts_value [p]) /\
  stored_collection (snd (mutate useAddPost (mkVariables p) w)) =
    inr (Posts_value (qs ++ [p])) /\
  (qs <> [] -> Posts_value [p] <> Posts_value (qs ++ [p])).
Proof.
  intros Hcache Hstore. split; [|split].
  - rewrite mutate_unfold. cbn [mutationFn onSuccess useAddPost].
    rewrite (useAddPost_mutationFn_array p w _ Hstore).
    rewrite (useAddPost_onSuccess_list p _ []).
    2:{ unfold QueryClient_getQueryData in *. cbn [queryCache]. by rewrite Hcache. }
    cbn [snd]. unfold QueryClient_getQueryData. cbn [queryCache].
    by rewrite lookup_insert_eq.
  - by apply stored_collection_after_add.
  - intros Hqs Heq. apply Posts_value_inj in Heq. apply Hqs.
    destruct qs as [|q qs]; [done|]. apply (f_equal (@length Post)) in Heq.
    rewrite length_app in Heq. cbn [length] in Heq. lia.
Qed.

Lemma useAddPost_without_cached_list_witness :
  let p1 := mkPost 1 (u "a") (u "b") in
  let p2 := mkPost 2 (u "hello 2") (u "yoo") in
  let w := mkWorld {[POSTS := JSON_stringify (Posts_value [p1])]} [] ∅ in
  QueryClient_getQueryData [inl POSTS] (snd (mutate useAddPost (mkVariables p2) w)) =
    Some (Posts_value [p2]) /\
  stored_collection (snd (mutate useAddPost (mkVariables p2) w)) =
    inr (Posts_value ([p1] ++ [p2])) /\
  ([p1] <> [] -> Posts_value [p2] <> Posts_value ([p1] ++ [p2])).
Proof.
  cbv zeta.
  refine (useAddPost_without_cached_list (mkPost 2 (u "hello 2") (u "yoo"))
            [mkPost 1 (u "a") (u "b")] (mkWorld _ [] ∅) _ _).
  - reflexivity.
  - vm_compute. reflexivity.
Defined.

Lemma stored_text_after_add p qs w :
  stored_collection w = inr (Posts_value qs) ->
  localStorage (snd (mutate useAddPost (mkVariables p) w)) !! POSTS =
    Some (JSON_stringify (Posts_value (qs ++ [p]))).
Proof.
  intros Hw. destruct (mutate_useAddPost_storage p w) as [-> _].
  unfold stored_collection in Hw.
  rewrite (useAddPost_mutationFn_array p w _ Hw). cbn [snd localStorage].
  rewrite lookup_insert_eq. unfold Posts_value. by rewrite List.map_app.
Qed.

(** X9. Ids are not checked for uniqueness, and the first post with an
    id hides the later ones: after Add Post, Get Post By Id returns,
    for an id that a post of the collection already had, the first such
    post, as before the add and also when the new post has that id; and
    for an id that no post had, the new post if it has the id and
    undefined otherwise. *)
Theorem usePost_after_add p qs postId w :
  stored_collection w = inr (Posts_value qs) ->
  fst (usePost_queryFn postId (snd (mutate useAddPost (mkVariables p) w))) =
    Fulfilled (option_map Post_value
                 (match first_with_id postId qs with
                  | Some q => Some q
                  | None => if (id p =? postId)%Z then Some p else None
                  end)) /\
  (forall q, first_with_id postId qs = Some q -> id q = postId /\ In q qs).
Proof.
  intros Hw. split; [|apply first_with_id_Some].
  rewrite (usePost_queryFn_Posts (qs ++ [p]) postId
             (JSON_stringify (Posts_value (qs ++ [p])))).
  - cbn [fst]. by rewrite first_with_id_app.
  - by apply stored_text_after_add.
  - apply JSON_parse_stringify_Posts.
Qed.

Lemma usePost_after_add_witness :
  let p1 := mkPost 1 (u "a") (u "b") in
  let p2 := mkPost 1 (u "hello 2") (u "yoo") in
  let w := mkWorld {[POSTS := JSON_stringify (Posts_value [p1])]} [] ∅ in
  fst (usePost_queryFn 1 (snd (mutate useAddPost (mkVariables p2) w))) =
    Fulfilled (option_map Post_value
                 (match first_with_id 1 [p1] with
                  | Some q => Some q
                  | None => if (id p2 =? 1)%Z then Some p2 else None
                  end)) /\
  (forall q, first_with_id 1 [p1] = Some q -> id q = 1%Z /\ In q [p1]).
Proof.
  cbv zeta.
  refine (usePost_after_add (mkPost 1 (u "hello 2") (u "yoo"))
            [mkPost 1 (u "a") (u "b")] 1 (mkWorld _ [] ∅) _).
  vm_compute. reflexivity.
Defined.

Lemma useAddPost_mutationFn_other_keys p w key :
  key <> POSTS ->
  localStorage (snd (useAddPost_mutationFn (mkVariables p) w)) !! key =
    localStorage w !! key.
Proof.
  intros Hkey. unfold useAddPost_mutationFn. run_async.
  destruct (JSON_parse _) as [e|response]; [done|]. run_async.
  destruct (Array_push response _) as [e|response']; [done|]. run_async.
  by rewrite lookup_insert_ne.
Qed.

(** X10. The functions of the three operations touch the one storage
    key "posts": from the start of a run of the function of List Posts,
    of Add Post or of Get Post By Id to its end, however it ends, what
    the storage holds under any other key stays as it is, and every
    storage call the function makes names the key "posts". *)
Theorem other_storage_keys_kept key w :
  key <> POSTS ->
  (localStorage (snd (usePosts_queryFn w)) !! key = localStorage w !! key /\
   exists log, calls (snd (usePosts_queryFn w)) = calls w ++ log /\
               Forall (fun c => call_key c = POSTS) log) /\
  (forall variables,
     localStorage (snd (useAddPost_mutationFn variables w)) !! key =
       localStorage w !! key /\
     exists log, calls (snd (useAddPost_mutationFn variables w)) = calls w ++ log /\
                 Forall (fun c => call_key c = POSTS) log) /\
  (forall postId,
     localStorage (snd (usePost_queryFn postId w)) !! key = localStorage w !! key /\
     exists log, calls (snd (usePost_queryFn postId w)) = calls w ++ log /\
                 Forall (fun c => call_key c = POSTS) log).
Proof.
  intros Hkey. split; [|split].
  - unfold usePosts_queryFn. run_async.
    destruct (not_string _); run_async.
    + split; [by rewrite lookup_insert_ne|].
      exists [GetItem POSTS; SetItem POSTS (u "[]")].
      split; [by rewrite <- app_assoc|]. by repeat constructor.
    + assert (localStorage
                (snd (lift (JSON_parse (nullish (localStorage w !! POSTS) []))
                        (mkWorld (localStorage w) (calls w ++ [GetItem POSTS]) (queryCache w))))
              = localStorage w /\
              calls
                (snd (lift (JSON_parse (nullish (localStorage w !! POSTS) []))
                        (mkWorld (localStorage w) (calls w ++ [GetItem POSTS]) (queryCache w))))
              = calls w ++ [GetItem POSTS]) as [Hs Hc].
      { by destruct (JSON_parse _). }
      unfold lift, ret, throw in Hs, Hc. rewrite Hs, Hc.
      split; [done|]. exists [GetItem POSTS]. split; [done|]. by repeat constructor.
  - intros [p]. split; [by apply useAddPost_mutationFn_other_keys|].
    unfold useAddPost_mutationFn. run_async.
    destruct (JSON_parse _) as [e|response]; run_async.
    { exists [GetItem POSTS]. split; [done|]. by repeat constructor. }
    destruct (Array_push response _) as [e|response']; run_async.
    { exists [GetItem POSTS]. split; [done|]. by repeat constructor. }
    exists [GetItem POSTS; SetItem POSTS (JSON_stringify response')].
    split; [by rewrite <- app_assoc|]. by repeat constructor.
  - intros postId. destruct (usePost_queryFn_storage postId w) as [-> _].
    split; [done|]. exists [GetItem POSTS]. split; [apply usePost_queryFn_calls|].
    by repeat constructor.
Qed.

Lemma other_storage_keys_kept_witness :
  localStorage (snd (usePosts_queryFn (mkWorld {[u "theme" := u "dark"]} [] ∅))) !! u "theme" =
    localStorage (mkWorld {[u "theme" := u "dark"]} [] ∅) !! u "theme" /\
  exists log,
    calls (snd (usePosts_queryFn (mkWorld {[u "theme" := u "dark"]} [] ∅))) =
      calls (mkWorld {[u "theme" := u "dark"]} [] ∅) ++ log /\
    Forall (fun c => call_key c = POSTS) log.
Proof.
  refine (proj1 (other_storage_keys_kept (u "theme")
                   (mkWorld {[u "theme" := u "dark"]} [] ∅) _)).
  discriminate.
Defined.

(** ** The views *)

Lemma Posts_link_Post w p : Posts_link w (Post_value p) = inr (Post_link w p).
Proof. reflexivity. Qed.

Lemma map_values_Posts w ps :
  map_values (Posts_link w) (List.map Post_value ps) = inr (List.map (Post_link w) ps).
Proof.
  induction ps as [|p ps IH]; [done|].
  cbn [List.map map_values]. by rewrite Posts_link_Post, IH.
Qed.

Lemma Post_link_frame w w1 p :
  (forall key, key <> [inl POSTS] -> queryCache w1 !! key = queryCache w !! key) ->
  Post_link w1 p = Post_link w p.
Proof.
  intros Hframe. unfold Post_link, QueryClient_getQueryData. by rewrite Hframe.
Qed.

Lemma usePosts_queryFn_cache w : queryCache (snd (usePosts_queryFn w)) = queryCache w.
Proof.
  unfold usePosts_queryFn. run_async. destruct (not_string _); run_async; [done|].
  by destruct (JSON_parse _).
Qed.

Lemma usePosts_fetch_other_keys w key :
  key <> [inl POSTS] ->
  queryCache (useQuery_fetch usePosts w) !! key = queryCache w !! key.
Proof.
  intros Hkey. unfold useQuery_fetch. cbn [usePosts enabled queryFn queryKey].
  unfold bind, ret. pose proof (usePosts_queryFn_cache w) as Hc.
  destruct (usePosts_queryFn w) as [[v|e] w1]; cbn [snd queryCache] in *;
    by rewrite lookup_insert_ne, Hc.
Qed.

Lemma addPosts_other_keys ps : forall w key,
  key <> [inl POSTS] ->
  queryCache (addPosts ps w) !! key = queryCache w !! key.
Proof.
  induction ps as [|p ps IH]; intros w key Hkey; cbn [addPosts]; [done|].
  rewrite IH by done. by apply mutate_useAddPost_other_keys.
Qed.

Lemma usePosts_entry_after_fetch qs w :
  stored_collection w = inr (Posts_value qs) ->
  useQuery usePosts (useQuery_fetch usePosts w) =
    mkQuery success (Some (Posts_value qs)) None.
Proof.
  intros Hw. rewrite useQuery_after_fetch by done.
  cbn [usePosts queryFn queryKey]. unfold bind, ret. unfold stored_collection in Hw.
  destruct (localStorage w !! POSTS) as [text|] eqn:Hs; cbn [nullish] in Hw.
  - rewrite (usePosts_queryFn_present w text Hs) by (by eapply JSON_parse_inr_nonempty).
    by rewrite Hw.
  - rewrite usePosts_queryFn_absent by (by rewrite Hs).
    rewrite JSON_parse_empty_array in Hw. cbn [fst settle]. congruence.
Qed.

Lemma usePosts_entry_after_add p qs w :
  useQuery usePosts w = mkQuery success (Some (Posts_value qs)) None ->
  stored_collection w = inr (Posts_value qs) ->
  useQuery usePosts (snd (mutate useAddPost (mkVariables p) w)) =
    mkQuery success (Some (Posts_value (qs ++ [p]))) None.
Proof.
  intros Hentry Hstore.
  assert (QueryClient_getQueryData [inl POSTS] w = Some (Posts_value qs)) as Hcache.
  { unfold useQuery, QueryClient_getQueryData in *. cbn [usePosts queryKey] in Hentry.
    destruct (queryCache w !! [inl POSTS]) as [q|]; [by rewrite Hentry|done]. }
  rewrite mutate_unfold. cbn [mutationFn onSuccess useAddPost].
  rewrite (useAddPost_mutationFn_array p w _ Hstore).
  erewrite useAddPost_onSuccess_list.
  2:{ unfold QueryClient_getQueryData in *. cbn [queryCache]. by rewrite Hcache. }
  cbn [snd]. unfold useQuery. cbn [usePosts queryKey queryCache].
  rewrite lookup_insert_eq. unfold Posts_value. by rewrite List.map_app.
Qed.

Lemma usePosts_entry_addPosts ps : forall qs w,
  useQuery usePosts w = mkQuery success (Some (Posts_value qs)) None ->
  stored_collection w = inr (Posts_value qs) ->
  useQuery usePosts (addPosts ps w) =
    mkQuery success (Some (Posts_value (qs ++ ps))) None.
Proof.
  induction ps as [|p ps IH]; intros qs w Hentry Hstore; cbn [addPosts].
  - by rewrite app_nil_r.
  - replace (qs ++ p :: ps) with ((qs ++ [p]) ++ ps) by (by rewrite <- app_assoc).
    apply IH; [by apply usePosts_entry_after_add|by apply stored_collection_after_add].
Qed.

Lemma get_member_Post_title p :
  get_member (Some (Post_value p)) (u "title") = inr (Some (VStr (title p))).
Proof. reflexivity. Qed.

Lemma get_member_Post_body p :
  get_member (Some (Post_value p)) (u "body") = inr (Some (VStr (body p))).
Proof. reflexivity. Qed.

(** X11. Which selected post is shown.  Let the store hold a collection
    of posts and let [p] be its first post with the selected id.  For a
    positive id, [App] shows the [Post] view and the view, once its
    query has run, shows the title and the body of [p].  For the id 0,
    [App] shows the [Post] view, but the query is disabled and the view
    says Loading whatever the cache holds.  For a negative id, [App]
    stays on the list. *)
Theorem selected_post_shown postId ps p text isFetching w :
  localStorage w !! POSTS = Some text ->
  JSON_parse text = inr (Posts_value ps) ->
  first_with_id postId ps = Some p ->
  ((0 < postId)%Z ->
     App postId = PostView postId /\
     Post_render postId isFetching (useQuery_fetch (usePost postId) w) =
       inr (PostDetail (Some (VStr (title p))) (Some (VStr (body p))) isFetching)) /\
  (postId = 0%Z ->
     App postId = PostView postId /\
     useQuery_fetch (usePost postId) w = w /\
     forall w1, Post_render postId isFetching w1 = inr PostLoading) /\
  ((postId < 0)%Z -> App postId = PostsView).
Proof.
  intros Hw Hparse Hp. split; [|split].
  - intros Hpos. split.
    { unfold App. by destruct (Z.gtb_spec postId (-1)); [|lia]. }
    unfold Post_render.
    rewrite useQuery_after_fetch by (apply usePost_nonzero_enabled; lia).
    cbn [usePost queryFn queryKey].
    rewrite (usePost_queryFn_Posts ps postId text w Hw Hparse), Hp.
    cbn [fst option_map settle status data]. unfold ToBoolean.
    destruct (Z.eqb_spec postId 0); [lia|]. cbn [negb].
    by rewrite get_member_Post_title, get_member_Post_body.
  - by intros ->.
  - intros Hneg. unfold App. by destruct (Z.gtb_spec postId (-1)); [lia|].
Qed.

Lemma selected_post_shown_witness :
  let p1 := mkPost 1 (u "a") (u "b") in
  let p2 := mkPost 2 (u "hello 7") (u "yoo") in
  let w := mkWorld {[POSTS := JSON_stringify (Posts_value [p1; p2])]} [] ∅ in
  App 2 = PostView 2 /\
  Post_render 2 false (useQuery_fetch (usePost 2) w) =
    inr (PostDetail (Some (VStr (title p2))) (Some (VStr (body p2))) false).
Proof.
  cbv zeta.
  refine (proj1 (selected_post_shown 2
                   [mkPost 1 (u "a") (u "b"); mkPost 2 (u "hello 7") (u "yoo")]
                   (mkPost 2 (u "hello 7") (u "yoo"))
                   (JSON_stringify
                      (Posts_value [mkPost 1 (u "a") (u "b"); mkPost 2 (u "hello 7") (u "yoo")]))
                   false (mkWorld _ [] ∅) _ _ _) _).
  - reflexivity.
  - vm_compute. reflexivity.
  - reflexivity.
  - lia.
Defined.

(** X12. What the list shows.  Once List Posts has run on a store that
    holds a collection (or none, the key being absent), and after any
    sequence of Add Post operations, the [Posts] view renders one link
    for each post of the collection and then for each added post, in
    that order; a link carries the id of its post for [setPostId], shows
    the title of its post, and is bold exactly when data is cached under
    the key of that id, which neither operation changes. *)
Theorem Posts_render_collection qs ps isFetching isPending w :
  stored_collection w = inr (Posts_value qs) ->
  Posts_render isFetching isPending (addPosts ps (useQuery_fetch usePosts w)) =
    inr (mkPostsScreen (PostsList (List.map (Post_link w) (qs ++ ps)) isFetching)
           isPending) /\
  (forall p,
     Posts_link w (Post_value p) = inr (Post_link w p) /\
     link_postId (Post_link w p) = Some (VNum (Int (id p))) /\
     link_text (Post_link w p) = Some (VStr (title p)) /\
     link_bold (Post_link w p) =
       truthy (QueryClient_getQueryData (queryKey (usePost (id p))) w)).
Proof.
  intros Hw. split; [|done].
  destruct (usePosts_fetch_collection qs w Hw) as [_ Hstore].
  pose proof (usePosts_entry_addPosts ps qs _ (usePosts_entry_after_fetch qs w Hw) Hstore)
    as Hentry.
  unfold Posts_render. rewrite Hentry. cbn [status data Array_map].
  unfold Posts_value. rewrite map_values_Posts. do 3 f_equal.
  apply map_ext. intros p. apply Post_link_frame. intros key Hkey.
  by rewrite addPosts_other_keys, usePosts_fetch_other_keys.
Qed.

Lemma Posts_render_collection_witness :
  let p1 := mkPost 1 (u "a") (u "b") in
  let p2 := mkPost 2 (u "hello 7") (u "yoo") in
  let w := mkWorld {[POSTS := JSON_stringify (Posts_value [p1])]} [] ∅ in
  Posts_render false false (addPosts [p2] (useQuery_fetch usePosts w)) =
    inr (mkPostsScreen (PostsList (List.map (Post_link w) ([p1] ++ [p2])) false) false).
Proof.
  cbv zeta.
  refine (proj1 (Posts_render_collection [mkPost 1 (u "a") (u "b")]
                   [mkPost 2 (u "hello 7") (u "yoo")] false false (mkWorld _ [] ∅) _)).
  vm_compute. reflexivity.
Defined.

Lemma usePost_fetch_storage postId w :
  localStorage (useQuery_fetch (usePost postId) w) = localStorage w.
Proof.
  unfold useQuery_fetch. destruct (enabled (usePost postId)); [|done].
  cbn [usePost queryFn]. pose proof (usePost_queryFn_storage postId w) as [Hs _].
  by destruct (usePost_queryFn postId w) as [o w1].
Qed.

Lemma usePost_fetch_data ps text postId k p w :
  localStorage w !! POSTS = Some text ->
  JSON_parse text = inr (Posts_value ps) ->
  first_with_id k ps = Some p ->
  QueryClient_getQueryData [inl (u "post"); inr k] (useQuery_fetch (usePost postId) w) =
    if (postId =? k)%Z && negb (postId =? 0)%Z
    then Some (Post_value p)
    else QueryClient_getQueryData [inl (u "post"); inr k] w.
Proof.
  intros Hw Hparse Hp. unfold useQuery_fetch, QueryClient_getQueryData.
  cbn [usePost enabled queryFn queryKey]. rewrite negb_involutive. unfold ToBoolean.
  destruct (Z.eqb_spec postId 0) as [->|Hnz]; cbn [negb].
  { by rewrite andb_false_r. }
  rewrite andb_true_r, (usePost_queryFn_Posts ps postId text w Hw Hparse).
  cbn [queryCache]. destruct (Z.eqb_spec postId k) as [->|Hne].
  - by rewrite lookup_insert_eq, Hp.
  - rewrite lookup_insert_ne; [done|]. congruence.
Qed.

Lemma visitPosts_storage ids : forall w, localStorage (visitPosts ids w) = localStorage w.
Proof.
  induction ids as [|i ids IH]; intros w; [done|].
  cbn [visitPosts fold_left]. fold (visitPosts ids (useQuery_fetch (usePost i) w)).
  by rewrite IH, usePost_fetch_storage.
Qed.

Lemma visitPosts_data ps text k p ids : forall w,
  localStorage w !! POSTS = Some text ->
  JSON_parse text = inr (Posts_value ps) ->
  first_with_id k ps = Some p ->
  QueryClient_getQueryData [inl (u "post"); inr k] (visitPosts ids w) =
    if existsb (Z.eqb k) ids && negb (k =? 0)%Z
    then Some (Post_value p)
    else QueryClient_getQueryData [inl (u "post"); inr k] w.
Proof.
  induction ids as [|i ids IH]; intros w Hw Hparse Hp; [done|].
  cbn [visitPosts fold_left existsb].
  fold (visitPosts ids (useQuery_fetch (usePost i) w)).
  rewrite IH; [|by rewrite usePost_fetch_storage|done|done].
  rewrite (usePost_fetch_data ps text i k p w Hw Hparse Hp).
  rewrite (Z.eqb_sym k i).
  destruct (Z.eqb_spec i k) as [->|Hne]; cbn [orb andb]; [|done].
  by destruct (existsb (Z.eqb k) ids), (k =? 0)%Z.
Qed.

Lemma first_with_id_In q ps : In q ps -> exists p, first_with_id (id q) ps = Some p.
Proof.
  intros Hin. unfold first_with_id.
  destruct (List.find _ ps) as [p|] eqn:Hfind; [by exists p|].
  pose proof (List.find_none _ _ Hfind q Hin) as Hq. cbn beta in Hq.
  by rewrite Z.eqb_refl in Hq.
Qed.

(** X13. Which links are bold.  On a store that holds a collection of
    posts, starting with no post cached, after any sequence of visits
    the link of a post of the collection is bold exactly when its id is
    among the visited ones and is not 0: the visit of the id 0 runs no
    query and caches nothing. *)
Theorem link_bold_iff_visited ps text ids q w :
  localStorage w !! POSTS = Some text ->
  JSON_parse text = inr (Posts_value ps) ->
  (forall k, QueryClient_getQueryData [inl (u "post"); inr k] w = None) ->
  In q ps ->
  Posts_link (visitPosts ids w) (Post_value q) = inr (Post_link (visitPosts ids w) q) /\
  (link_bold (Post_link (visitPosts ids w) q) = true <-> In (id q) ids /\ id q <> 0%Z).
Proof.
  intros Hw Hparse Hempty Hq. split; [done|].
  unfold Post_link. cbn [link_bold].
  destruct (first_with_id_In q ps Hq) as [p Hp].
  rewrite (visitPosts_data ps text (id q) p ids w Hw Hparse Hp), Hempty.
  destruct (existsb (Z.eqb (id q)) ids) eqn:Hex; cbn [andb].
  - apply existsb_exists in Hex as (k & Hk & Heq). apply Z.eqb_eq in Heq. subst k.
    destruct (Z.eqb_spec (id q) 0) as [H0|H0]; cbn [negb option_map truthy Post_value].
    + split; [done|]. by intros [_ ?].
    + done.
  - cbn [truthy]. split; [done|]. intros [Hin _].
    assert (existsb (Z.eqb (id q)) ids = true) as Hex'.
    { apply existsb_exists. exists (id q). split; [done|apply Z.eqb_refl]. }
    congruence.
Qed.

Lemma link_bold_iff_visited_witness :
  let p1 := mkPost 1 (u "a") (u "b") in
  let p2 := mkPost 2 (u "hello 7") (u "yoo") in
  let w := mkWorld {[POSTS := JSON_stringify (Posts_value [p1; p2])]} [] ∅ in
  Posts_link (visitPosts [2%Z; 0%Z] w) (Post_value p2) =
    inr (Post_link (visitPosts [2%Z; 0%Z] w) p2) /\
  (link_bold (Post_link (visitPosts [2%Z; 0%Z] w) p2) = true <->
   In (id p2) [2%Z; 0%Z] /\ id p2 <> 0%Z).
Proof.
  cbv zeta.
  refine (link_bold_iff_visited
            [mkPost 1 (u "a") (u "b"); mkPost 2 (u "hello 7") (u "yoo")]
            (JSON_stringify
               (Posts_value [mkPost 1 (u "a") (u "b"); mkPost 2 (u "hello 7") (u "yoo")]))
            [2%Z; 0%Z] (mkPost 2 (u "hello 7") (u "yoo")) (mkWorld _ [] ∅) _ _ _ _).
  - reflexivity.
  - vm_compute. reflexivity.
  - reflexivity.
  - right. left. reflexivity.
Defined.

(** X14. A failed query is shown as its message.  When List Posts fails
    the [Posts] view shows the message of the error in place of the
    list; when Get Post By Id fails, for an id other than 0, the [Post]
    view shows the message of the error: No posts yet when the key is
    absent or holds the empty string. *)
Theorem failed_query_shows_message isFetching isPending w :
  (forall e, fst (usePosts_queryFn w) = Rejected e ->
     Posts_render isFetching isPending (useQuery_fetch usePosts w) =
       inr (mkPostsScreen (PostsError (message e)) isPending)) /\
  (forall postId e, postId <> 0%Z ->
     fst (usePost_queryFn postId w) = Rejected e ->
     Post_render postId isFetching (useQuery_fetch (usePost postId) w) =
       inr (PostError (message e))) /\
  (forall postId, postId <> 0%Z ->
     not_string (localStorage w !! POSTS) = true ->
     Post_render postId isFetching (useQuery_fetch (usePost postId) w) =
       inr (PostError (u "No posts yet"))).
Proof.
  assert (forall postId e, postId <> 0%Z ->
            fst (usePost_queryFn postId w) = Rejected e ->
            Post_render postId isFetching (useQuery_fetch (usePost postId) w) =
              inr (PostError (message e))) as Hpost.
  { intros postId e Hnz He. unfold Post_render.
    rewrite useQuery_after_fetch by (by apply usePost_nonzero_enabled).
    cbn [usePost queryFn queryKey]. rewrite He. cbn [settle status failure error_message].
    unfold ToBoolean. by destruct (Z.eqb_spec postId 0). }
  split; [|split; [exact Hpost|]].
  - intros e He. unfold Posts_render. rewrite useQuery_after_fetch by done.
    cbn [usePosts queryFn queryKey]. unfold bind, ret.
    destruct (usePosts_queryFn w) as [[v|e'] w1]; cbn [fst] in *; [done|].
    by simplify_eq.
  - intros postId Hnz Hns.
    apply (Hpost postId (mkError PlainError (u "No posts yet")) Hnz).
    unfold usePost_queryFn. run_async. by rewrite Hns.
Qed.

Lemma failed_query_shows_message_witness :
  Post_render 7 false (useQuery_fetch (usePost 7) (mkWorld ∅ [] ∅)) =
    inr (PostError (u "No posts yet")).
Proof.
  refine (proj2 (proj2 (failed_query_shows_message false false (mkWorld ∅ [] ∅))) 7%Z _ _).
  - discriminate.
  - reflexivity.
Defined.

Lemma map_values_null w elems :
  In VNull elems ->
  exists e, map_values (Posts_link w) elems = inl e /\ name e = TypeError.
Proof.
  induction elems as [|x elems IH]; [done|]. intros Hin. cbn [map_values].
  destruct x as [|b|n|s|xs|props];
    try (destruct Hin as [Hx|Hin]; [done|];
         destruct (IH Hin) as (e & -> & He); by exists e).
  eexists. split; [reflexivity|done].
Qed.

(** X15. The cast of the parsed text to a list of posts checks nothing,
    and the list view relies on it.  When the store holds valid JSON
    that is no array, or an array with a null in it, List Posts succeeds
    with that value as its data, and the render of the [Posts] view
    throws a TypeError. *)
Theorem Posts_render_not_a_collection text v isFetching isPending w :
  localStorage w !! POSTS = Some text ->
  JSON_parse text = inr v ->
  (forall elems, v = VArr elems -> In VNull elems) ->
  useQuery usePosts (useQuery_fetch usePosts w) = mkQuery success (Some v) None /\
  exists e,
    Posts_render isFetching isPending (useQuery_fetch usePosts w) = inl e /\
    name e = TypeError.
Proof.
  intros Hw Hparse Hv.
  assert (useQuery usePosts (useQuery_fetch usePosts w) = mkQuery success (Some v) None)
    as Hentry.
  { rewrite useQuery_after_fetch by done. cbn [usePosts queryFn queryKey].
    unfold bind, ret.
    rewrite (usePosts_queryFn_present w text Hw) by (by eapply JSON_parse_inr_nonempty).
    by rewrite Hparse. }
  split; [exact Hentry|]. unfold Posts_render. rewrite Hentry.
  cbn [status data]. destruct v as [|b|n|s|elems|props]; cbn [Array_map];
    try (eexists; split; [reflexivity|done]).
  destruct (map_values_null (useQuery_fetch usePosts w) elems (Hv elems eq_refl))
    as (e & -> & He).
  by exists e.
Qed.

Lemma Posts_render_not_a_collection_witness :
  let w := mkWorld {[POSTS := [Ch.LBRACE; Ch.RBRACE]]} [] ∅ in
  useQuery usePosts (useQuery_fetch usePosts w) = mkQuery success (Some (VObj [])) None /\
  exists e,
    Posts_render false false (useQuery_fetch usePosts w) = inl e /\
    name e = TypeError.
Proof.
  cbv zeta.
  refine (Posts_render_not_a_collection [Ch.LBRACE; Ch.RBRACE] (VObj []) false false
            (mkWorld _ [] ∅) _ _ _).
  - reflexivity.
  - reflexivity.
  - discriminate.
Defined.
